(** * Startup scenario simulator: engine and strategic scoring

    Shallow embedding of [run_simulation] and of the scoring script of
    [src/analysis.py] (the engine is the same, line for line, in
    [src/app3.py], minus the event tally).

    Conventions of the embedding.
    - Python floats are read as exact rationals ([Q]); equations between
      computed amounts are stated up to [==] where the two sides are not
      computed by the same operations. Where rounding decides, the module
      [Binary64] has the same lines on binary64 floats.
    - Python integers that drive [range] are [Z]; a negative bound gives
      an empty loop.
    - The module-level slider values are gathered in the record [Params].
    - [np.random] is an explicit generator state threaded through the
      loops, behind the interface [RandomState].
    - A Python exception is a value of [exn] on the left of [result]. *)

From Stdlib Require Import ZArith QArith Qround Qminmax List Bool Lia Lqa.
From Stdlib Require Import Floats.
Import ListNotations.

Open Scope Q_scope.

(** ** Exceptions *)

Inductive exn : Type :=
| ZeroDivisionError
| IndexError
| ValueError
| OverflowError.

Definition result (A : Type) : Type := (exn + A)%type.

Definition ret {A : Type} (a : A) : result A := inr a.

Definition raise {A : Type} (e : exn) : result A := inl e.

Definition bind {A B : Type} (m : result A) (f : A -> result B) : result B :=
  match m with
  | inl e => inl e
  | inr a => f a
  end.

Notation "x <- m ;; k" := (bind m (fun x => k))
  (at level 61, m at next level, right associativity).
Notation "' pat <- m ;; k" := (bind m (fun x => match x with pat => k end))
  (at level 61, pat pattern, m at next level, right associativity).

(** ** Arithmetic of the script *)

(** [x < y] on floats. *)
Definition Qltb (x y : Q) : bool := negb (Qle_bool y x).

(** [max(a, b)]: the first argument unless the second is greater. *)
Definition py_max (a b : Q) : Q := if Qltb a b then b else a.

(** [a / b] on Python floats. *)
Definition py_div (a b : Q) : result Q :=
  if Qeq_bool b 0 then raise ZeroDivisionError else ret (a / b).

(** [sum(l)]: left to right from 0. *)
Definition py_sum (l : list Q) : Q := fold_left Qplus l 0.

(** [l[i] = v] for an index known to be in range. *)
Fixpoint list_set (l : list Q) (i : nat) (v : Q) : list Q :=
  match l, i with
  | [], _ => []
  | _ :: t, O => v :: t
  | h :: t, S i' => h :: list_set t i' v
  end.

(** ** Random source

    [rand] is [np.random.rand()], a draw in [[0,1)]; [randint n] is the
    index draw behind [np.random.choice] on a list of length [n]. *)

Class RandomState (G : Type) : Type := {
  rand : G -> Q * G;
  randint : nat -> G -> nat * G
}.

(** The ranges numpy documents for the two draws. *)
Class RandomLaws (G : Type) `{RandomState G} : Prop := {
  rand_range : forall g, 0 <= fst (rand g) /\ fst (rand g) < 1;
  randint_range : forall n g, (0 < n)%nat -> (fst (randint n g) < n)%nat
}.

(** [np.random.choice(l)]: an index in [range(len(l))], then the item. *)
Definition choice {G : Type} `{RandomState G} {A : Type}
    (l : list A) (d : A) (g : G) : A * G :=
  let '(i, g') := randint (length l) g in (nth i l d, g').

(** ** Data model *)

(** The four strategic events, in the order of the list given to
    [np.random.choice]: "Levee de fonds" (funding), "Partenariat
    strategique" (partnership), "Bug critique" (critical bug), "Crise
    reputationnelle" (reputation crisis). *)
Inductive event_type : Type :=
| LeveeDeFonds
| PartenariatStrategique
| BugCritique
| CriseReputationnelle.

Definition event_names : list event_type :=
  [LeveeDeFonds; PartenariatStrategique; BugCritique; CriseReputationnelle].

Definition event_eqb (a b : event_type) : bool :=
  match a, b with
  | LeveeDeFonds, LeveeDeFonds => true
  | PartenariatStrategique, PartenariatStrategique => true
  | BugCritique, BugCritique => true
  | CriseReputationnelle, CriseReputationnelle => true
  | _, _ => false
  end.

(** [event_counts]: a dict from event name to count, in insertion order. *)
Definition dict : Type := list (event_type * Z).

Fixpoint dict_get (d : dict) (k : event_type) (default : Z) : Z :=
  match d with
  | [] => default
  | (k', v) :: d' => if event_eqb k k' then v else dict_get d' k default
  end.

Fixpoint dict_set (d : dict) (k : event_type) (v : Z) : dict :=
  match d with
  | [] => [(k, v)]
  | (k', v') :: d' =>
      if event_eqb k k' then (k, v) :: d' else (k', v') :: dict_set d' k v
  end.

Definition dict_values (d : dict) : list Z := map snd d.

Record Competitor : Type := {
  growth : Q;
  aggressiveness : Q
}.

(** The slider values read by [run_simulation]. *)
Record Params : Type := {
  cash_start : Q;
  burn_rate : Q;
  market_shock_prob : Q;
  event_chance : Q;
  wargame_mode : bool;
  competitors : list Competitor;
  total_months : Z;
  num_simulations : Z
}.

(** The variables of one trial that live across months. *)
Record TrialState : Type := {
  cash : Q;
  clients : Q;
  growth_rate : Q;
  retention : Q;
  comp_clients : list Q
}.

(** One entry of [history]. *)
Record MonthRecord : Type := {
  mois : Z;
  m_cash : Q;
  m_clients : Q;
  m_shock : bool;
  m_event : option event_type;
  m_competitors : list Q
}.

(** One entry of [results]. *)
Record TrialResult : Type := {
  succes : bool;
  cash_final : Q;
  duree : Z;
  data : list MonthRecord
}.

(** ** The engine *)

(** Line 56: the month's multiplier before competitors. *)
Definition base_growth (growth_rate : Q) (shock : bool) : Q :=
  growth_rate / 100 * (if shock then 1 # 2 else 1).

(** Lines 59-62: the loop over [enumerate(competitors)]; [i] is the index
    of the head of [comps]. *)
Fixpoint competitors_loop (i : nat) (comps : list Competitor) (clients : Q)
    (comp_clients : list Q) (effective_growth : Q) : result (list Q * Q) :=
  match comps with
  | [] => ret (comp_clients, effective_growth)
  | comp :: comps' =>
      match nth_error comp_clients i with
      | None => raise IndexError
      | Some c =>
          let c' := c * (1 + growth comp / 100) in
          let comp_clients' := list_set comp_clients i c' in
          share <- py_div c' (clients + py_sum comp_clients') ;;
          let market_share_loss := aggressiveness comp / 100 * share in
          competitors_loop (S i) comps' clients comp_clients'
            (effective_growth * py_max 0 (1 - market_share_loss))
      end
  end.

(** Lines 67-74: the effect of an event on [cash], [growth_rate] and
    [retention]. *)
Definition apply_event (e : event_type) (st : TrialState) : TrialState :=
  match e with
  | LeveeDeFonds =>
      {| cash := cash st + 20000; clients := clients st;
         growth_rate := growth_rate st; retention := retention st;
         comp_clients := comp_clients st |}
  | PartenariatStrategique =>
      {| cash := cash st; clients := clients st;
         growth_rate := growth_rate st * (12 # 10); retention := retention st;
         comp_clients := comp_clients st |}
  | BugCritique =>
      {| cash := cash st; clients := clients st;
         growth_rate := growth_rate st; retention := retention st * (9 # 10);
         comp_clients := comp_clients st |}
  | CriseReputationnelle =>
      {| cash := cash st; clients := clients st;
         growth_rate := growth_rate st * (7 # 10); retention := retention st;
         comp_clients := comp_clients st |}
  end.

(** Lines 78-91: clients, revenue, cash and the history entry. *)
Definition update_and_record (p : Params) (month : Z) (st : TrialState)
    (comp_clients' : list Q) (effective_growth : Q) (shock : bool)
    (event : option event_type) : TrialState * MonthRecord :=
  let new_clients := clients st * effective_growth in
  let clients' := clients st * (retention st / 100) + new_clients in
  let revenue := clients' * 10 in
  let cash' := cash st + (revenue - burn_rate p) in
  ({| cash := cash'; clients := clients'; growth_rate := growth_rate st;
      retention := retention st; comp_clients := comp_clients' |},
   {| mois := month + 1; m_cash := cash'; m_clients := clients';
      m_shock := shock; m_event := event; m_competitors := comp_clients' |}).

Section Engine.

Context {G : Type} `{RandomState G}.

(** Lines 53-91: the body of the loop over months. *)
Definition month_body (p : Params) (month : Z) (st : TrialState)
    (event_counts : dict) (g : G)
  : result (TrialState * MonthRecord * dict * G) :=
  let '(u1, g1) := rand g in
  let shock := Qltb u1 (market_shock_prob p / 100) in
  let '(u2, g2) := rand g1 in
  let event_triggered := Qltb u2 (event_chance p / 100) in
  let effective_growth := base_growth (growth_rate st) shock in
  '(comp_clients', effective_growth') <-
     (if wargame_mode p
      then competitors_loop 0 (competitors p) (clients st) (comp_clients st)
             effective_growth
      else ret (comp_clients st, effective_growth)) ;;
  let '(event, st1, event_counts', g3) :=
    if event_triggered then
      let '(e, g3) := choice event_names LeveeDeFonds g2 in
      (Some e, apply_event e st,
       dict_set event_counts e (dict_get event_counts e 0 + 1)%Z, g3)
    else (None, st, event_counts, g2) in
  let '(st', r) :=
    update_and_record p month st1 comp_clients' effective_growth' shock event in
  ret (st', r, event_counts', g3).

(** Lines 52-94: [for month in range(total_months)] with its [break];
    [n] is the number of months left. *)
Fixpoint months_loop (p : Params) (n : nat) (month : Z) (st : TrialState)
    (history : list MonthRecord) (event_counts : dict) (g : G)
  : result (TrialState * list MonthRecord * dict * G) :=
  match n with
  | O => ret (st, history, event_counts, g)
  | S n' =>
      '(st', r, event_counts', g') <- month_body p month st event_counts g ;;
      let history' := history ++ [r] in
      if Qltb (cash st') 0 then ret (st', history', event_counts', g')
      else months_loop p n' (month + 1) st' history' event_counts' g'
  end.

(** Lines 45-50: the state a trial starts from. *)
Definition initial_state (p : Params) (growth_rate_init retention_init : Q)
  : TrialState :=
  {| cash := cash_start p; clients := 100; growth_rate := growth_rate_init;
     retention := retention_init;
     comp_clients := map (fun _ => 100) (competitors p) |}.

(** Lines 45-98: one iteration of the loop over simulations. *)
Definition trial (p : Params) (growth_rate_init retention_init : Q)
    (event_counts : dict) (g : G) : result (TrialResult * dict * G) :=
  '(st, history, event_counts', g') <-
     months_loop p (Z.to_nat (total_months p)) 0
       (initial_state p growth_rate_init retention_init) [] event_counts g ;;
  let final_cash := cash st in
  let success := Qltb 0 final_cash in
  ret ({| succes := success; cash_final := final_cash;
          duree := Z.of_nat (length history); data := history |},
       event_counts', g').

(** Lines 44-98: [for _ in range(num_simulations)]. *)
Fixpoint trials_loop (p : Params) (growth_rate_init retention_init : Q)
    (n : nat) (results : list TrialResult) (event_counts : dict) (g : G)
  : result (list TrialResult * dict * G) :=
  match n with
  | O => ret (results, event_counts, g)
  | S n' =>
      '(r, event_counts', g') <-
         trial p growth_rate_init retention_init event_counts g ;;
      trials_loop p growth_rate_init retention_init n' (results ++ [r])
        event_counts' g'
  end.

(** Lines 40-100. *)
Definition run_simulation (p : Params) (growth_rate_init retention_init : Q)
    (g : G) : result (list TrialResult * dict * G) :=
  trials_loop p growth_rate_init retention_init
    (Z.to_nat (num_simulations p)) [] [] g.

End Engine.

(** ** The scoring script (lines 108-122) *)

(** [round(x)] on a float: to the nearest integer, ties to the even one. *)
Definition py_round (q : Q) : Z :=
  let f := Qfloor q in
  let r := q - inject_Z f in
  if Qltb r (1 # 2) then f
  else if Qltb (1 # 2) r then (f + 1)%Z
  else if Z.even f then f else (f + 1)%Z.

(** [np.mean(l)]; [None] is the [nan] of an empty list. *)
Definition np_mean (l : list Q) : option Q :=
  match l with
  | [] => None
  | _ => Some (py_sum l / inject_Z (Z.of_nat (length l)))
  end.

(** The square of [np.std(l)]: the mean of the squared deviations. *)
Definition np_var (l : list Q) : option Q :=
  match np_mean l with
  | None => None
  | Some m => np_mean (map (fun x => (x - m) * (x - m)) l)
  end.

(** [int(np.std(l) / 10000)] from the variance [v]: the integer part of
    [sqrt v / 10000] is the integer square root of the integer part of
    [v / 10000^2] (see [int_std_sound]). *)
Definition int_std_over_10000 (v : Q) : Z :=
  Z.sqrt (Qfloor (v / inject_Z (10000 * 10000))).

Definition bool_to_Q (b : bool) : Q := if b then 1 else 0.

Record Scores : Type := {
  success_rate : Q;
  average_lifetime : Q;
  total_events : Z;
  robust_score : Z;
  resilience_score : Z;
  stability_score : Z;
  vulnerability_score : Z;
  total_score : Z
}.

(** [round] of a numpy float that may be [nan]. *)
Definition round_float (x : option Q) : result Z :=
  match x with
  | None => raise ValueError
  | Some q => ret (py_round q)
  end.

(** [average_lifetime / (total_months / 5)] on numpy floats, then [round]:
    a zero divisor gives [nan] or [inf], which [round] refuses. *)
Definition round_lifetime_ratio (average_lifetime : Q) (total_months : Z)
  : result Z :=
  let d := inject_Z total_months / 5 in
  if Qeq_bool d 0 then
    if Qeq_bool average_lifetime 0 then raise ValueError
    else raise OverflowError
  else ret (py_round (average_lifetime / d)).

(** [total_events / num_simulations * 5] on Python integers, then
    [round]. *)
Definition round_event_ratio (total_events num_simulations : Z) : result Z :=
  x <- py_div (inject_Z total_events) (inject_Z num_simulations) ;;
  ret (py_round (x * 5)).

(** Lines 137-142: the message shown for a total. *)
Inductive verdict : Type :=
| TresRobuste
| ModerementFiable
| Fragile.

Definition verdict_of (total_score : Z) : verdict :=
  if (16 <=? total_score)%Z then TresRobuste
  else if (10 <=? total_score)%Z then ModerementFiable else Fragile.

(** Lines 108-122. *)
Definition strategic_scoring (p : Params) (sim_data : list TrialResult)
    (event_counts : dict) : result Scores :=
  let success_rate :=
    option_map (fun m => m * 100)
      (np_mean (map (fun s => bool_to_Q (succes s)) sim_data)) in
  let average_lifetime :=
    np_mean (map (fun s => inject_Z (duree s)) sim_data) in
  let var_cash := np_var (map cash_final sim_data) in
  let total_events := fold_left Z.add (dict_values event_counts) 0%Z in
  r1 <- round_float (option_map (fun x => x / 20) success_rate) ;;
  let robust_score := Z.min 5 r1 in
  r2 <- match average_lifetime with
        | None => raise ValueError
        | Some a => round_lifetime_ratio a (total_months p)
        end ;;
  let resilience_score := Z.min 5 r2 in
  i3 <- match var_cash with
        | None => raise ValueError
        | Some v => ret (int_std_over_10000 v)
        end ;;
  let stability_score := (5 - Z.min 5 i3)%Z in
  r4 <- round_event_ratio total_events (num_simulations p) ;;
  let vulnerability_score := Z.max 0 (5 - r4) in
  match success_rate, average_lifetime with
  | Some sr, Some al =>
      ret {| success_rate := sr; average_lifetime := al;
             total_events := total_events;
             robust_score := robust_score;
             resilience_score := resilience_score;
             stability_score := stability_score;
             vulnerability_score := vulnerability_score;
             total_score := (robust_score + resilience_score
                             + stability_score + vulnerability_score)%Z |}
  | _, _ => raise ValueError
  end.

(** ** A generator for examples

    The state is a tape of integers read from the left: [rand] turns the
    head into hundredths, [randint n] reduces it modulo [n]; an empty
    tape reads as zeros. *)

Definition tape_rand (t : list Z) : Q * list Z :=
  match t with
  | [] => (0, [])
  | z :: t' => (inject_Z (z mod 100) / 100, t')
  end.

Definition tape_randint (n : nat) (t : list Z) : nat * list Z :=
  match t with
  | [] => (0%nat, [])
  | z :: t' => (Z.to_nat (z mod Z.of_nat n), t')
  end.

#[export] Instance tape_random : RandomState (list Z) := {|
  rand := tape_rand;
  randint := tape_randint
|}.

(** ** The month's body, split into its draws and its arithmetic *)

(** Lines 64-76 once [event_type] is known ([None] when no event was
    triggered). *)
Definition after_event (event : option event_type) (st : TrialState)
  : TrialState :=
  match event with
  | Some e => apply_event e st
  | None => st
  end.

(** The state after the events of several months, oldest first. *)
Definition after_events (events : list (option event_type))
    (st : TrialState) : TrialState :=
  fold_left (fun s event => after_event event s) events st.

(** Lines 56-91 once [shock] and [event_type] are known. *)
Definition month_step (p : Params) (month : Z) (st : TrialState)
    (shock : bool) (event : option event_type)
  : result (TrialState * MonthRecord) :=
  '(comp_clients', effective_growth') <-
     (if wargame_mode p
      then competitors_loop 0 (competitors p) (clients st) (comp_clients st)
             (base_growth (growth_rate st) shock)
      else ret (comp_clients st, base_growth (growth_rate st) shock)) ;;
  ret (update_and_record p month (after_event event st) comp_clients'
         effective_growth' shock event).


(** Line 66. *)
Definition tally (event_counts : dict) (event : option event_type) : dict :=
  match event with
  | Some e => dict_set event_counts e (dict_get event_counts e 0 + 1)%Z
  | None => event_counts
  end.

Section Draws.

Context {G : Type} `{RandomState G}.

(** Lines 53, 54 and 65: what a month takes from the generator. *)
Definition month_draws (p : Params) (g : G) : bool * option event_type * G :=
  let '(u1, g1) := rand g in
  let '(u2, g2) := rand g1 in
  let shock := Qltb u1 (market_shock_prob p / 100) in
  if Qltb u2 (event_chance p / 100) then
    let '(e, g3) := choice event_names LeveeDeFonds g2 in (shock, Some e, g3)
  else (shock, None, g2).

End Draws.

(** ** What the specification says, for comparison with the code *)

(** Specification, sections 6 and 7: the documented ranges. *)
Definition percent_in_range (q : Q) : bool := Qle_bool 0 q && Qle_bool q 100.

Definition spec_valid_params (p : Params) (retention_rate : Q) : bool :=
  (1 <=? total_months p)%Z && (1 <=? num_simulations p)%Z
  && percent_in_range retention_rate
  && percent_in_range (market_shock_prob p)
  && percent_in_range (event_chance p)
  && Qle_bool 0 (burn_rate p)
  && forallb (fun c => percent_in_range (aggressiveness c)) (competitors p).

(** Specification, section 4.1 step 2: every competitor's count compounded
    by its growth. *)
Fixpoint spec_compounded (comps : list Competitor) (cc : list Q) : list Q :=
  match comps, cc with
  | comp :: comps', c :: cc' =>
      c * (1 + growth comp / 100) :: spec_compounded comps' cc'
  | _, _ => cc
  end.

Fixpoint spec_total (l : list Q) : Q :=
  match l with
  | [] => 0
  | x :: l' => x + spec_total l'
  end.

(** The counts seen while competitor [i] is processed: competitors
    [0..i] compounded, the later ones as the month found them. *)
Definition spec_in_progress (comps : list Competitor) (cc : list Q) (i : nat)
  : list Q :=
  firstn (S i) (spec_compounded comps cc) ++ skipn (S i) cc.

Definition spec_market_share_loss (comps : list Competitor) (clients : Q)
    (cc : list Q) (i : nat) : Q :=
  aggressiveness (nth i comps {| growth := 0; aggressiveness := 0 |}) / 100
  * (nth i (spec_compounded comps cc) 0
     / (clients + spec_total (spec_in_progress comps cc i))).

(** The month's multiplier after competitors [0..n-1], in list order. *)
Fixpoint spec_effective_growth (comps : list Competitor) (clients : Q)
    (cc : list Q) (eg : Q) (n : nat) : Q :=
  match n with
  | O => eg
  | S n' =>
      spec_effective_growth comps clients cc eg n'
      * Qmax 0 (1 - spec_market_share_loss comps clients cc n')
  end.



(** ** Predicates and examples used by the statements *)

(** What a finished trial records. *)
Definition trial_shape (p : Params) (r : TrialResult) : Prop :=
  succes r = Qltb 0 (cash_final r)
  /\ duree r = Z.of_nat (length (data r))
  /\ (length (data r) <= Z.to_nat (total_months p))%nat
  /\ (data r = [] ->
        cash_final r = cash_start p /\ Z.to_nat (total_months p) = O)
  /\ (forall d, data r <> [] -> m_cash (last (data r) d) = cash_final r)
  /\ ((length (data r) < Z.to_nat (total_months p))%nat -> cash_final r < 0)
  /\ (forall i d, (S i < length (data r))%nat ->
        0 <= m_cash (nth i (data r) d))
  /\ (forall i d, (i < length (data r))%nat ->
        mois (nth i (data r) d) = (Z.of_nat i + 1)%Z).

(** The trace of the specification: 20000 of cash, a burn of 5000, no
    shock, no event, no competitor, three months. *)
Definition params_trace : Params :=
  {| cash_start := 20000; burn_rate := 5000; market_shock_prob := 0;
     event_chance := 0; wargame_mode := false; competitors := [];
     total_months := 3; num_simulations := 1 |}.

(** A start-up that cannot pay its first month. *)
Definition params_short : Params :=
  {| cash_start := 1000; burn_rate := 5000; market_shock_prob := 10;
     event_chance := 20; wargame_mode := false; competitors := [];
     total_months := 12; num_simulations := 2 |}.

(** A filler for [hd] on lists of results. *)
Definition result_default : TrialResult :=
  {| succes := false; cash_final := 0; duree := 0; data := [] |}.

(** One month that ends on a cash of exactly zero. *)
Definition params_zero : Params :=
  {| cash_start := 4000; burn_rate := 5000; market_shock_prob := 0;
     event_chance := 0; wargame_mode := false; competitors := [];
     total_months := 1; num_simulations := 1 |}.

(** Two competitors, as the sliders propose them. *)
Definition params_wargame : Params :=
  {| cash_start := 20000; burn_rate := 5000; market_shock_prob := 10;
     event_chance := 20; wargame_mode := true;
     competitors := [ {| growth := 25; aggressiveness := 30 |};
                      {| growth := 25; aggressiveness := 30 |} ];
     total_months := 12; num_simulations := 1 |}.

(** A competitor that loses all its clients in the first month. *)
Definition params_vanishing : Params :=
  {| cash_start := 20000; burn_rate := 5000; market_shock_prob := 0;
     event_chance := 0; wargame_mode := true;
     competitors := [ {| growth := -(100); aggressiveness := 30 |} ];
     total_months := 12; num_simulations := 1 |}.

(** The loop over months when nothing is drawn and nobody competes. *)
Fixpoint quiet_months (p : Params) (n : nat) (month : Z) (st : TrialState)
    (history : list MonthRecord) : TrialState * list MonthRecord :=
  match n with
  | O => (st, history)
  | S n' =>
      let '(st', r) :=
        update_and_record p month st (comp_clients st)
          (base_growth (growth_rate st) false) false None in
      let history' := history ++ [r] in
      if Qltb (cash st') 0 then (st', history')
      else quiet_months p n' (month + 1) st' history'
  end.

Definition quiet_trial (p : Params) (gi ri : Q) : TrialResult :=
  let '(st, history) :=
    quiet_months p (Z.to_nat (total_months p)) 0 (initial_state p gi ri) [] in
  {| succes := Qltb 0 (cash st); cash_final := cash st;
     duree := Z.of_nat (length history); data := history |}.


(** Three months of a start-up that grows. *)
Definition params_growing : Params :=
  {| cash_start := 20000; burn_rate := 5000; market_shock_prob := 0;
     event_chance := 0; wargame_mode := false; competitors := [];
     total_months := 3; num_simulations := 2 |}.


(** The quiet month and the quiet loop on binary64 floats: lines 56,
    78-82 and 93-94 with [shock] false, no event and no competitor. *)
Module Binary64.

Definition quiet_month (cash clients growth_rate retention burn_rate : float)
  : float * float :=
  let effective_growth := (growth_rate / 100 * 1)%float in
  let new_clients := (clients * effective_growth)%float in
  let clients' := (clients * (retention / 100) + new_clients)%float in
  let revenue := (clients' * 10)%float in
  let cash' := (cash + (revenue - burn_rate))%float in
  (cash', clients').

Fixpoint quiet_months (n : nat)
    (cash clients growth_rate retention burn_rate : float)
    (history : list (float * float)) : float * list (float * float) :=
  match n with
  | O => (cash, history)
  | S n' =>
      let '(cash', clients') :=
        quiet_month cash clients growth_rate retention burn_rate in
      let history' := history ++ [(cash', clients')] in
      if (cash' <? 0)%float then (cash', history')
      else quiet_months n' cash' clients' growth_rate retention burn_rate
             history'
  end.

End Binary64.

(** Every count of the tally is a count. *)
Definition dict_nonneg (d : dict) : Prop :=
  Forall (fun kv => (0 <= snd kv)%Z) d.

(** Four scores out of 5 and their total out of 20. *)
Definition scores_in_range (s : Scores) : Prop :=
  (0 <= robust_score s <= 5)%Z
  /\ (0 <= resilience_score s <= 5)%Z
  /\ (0 <= stability_score s <= 5)%Z
  /\ (0 <= vulnerability_score s <= 5)%Z
  /\ total_score s
     = (robust_score s + resilience_score s + stability_score s
        + vulnerability_score s)%Z
  /\ (0 <= total_score s <= 20)%Z.

(** Two generator states are interchangeable when they yield the same
    draws and leave interchangeable states. *)
Definition same_draws {G1 G2 : Type} `{RandomState G1} `{RandomState G2}
    (R : G1 -> G2 -> Prop) : Prop :=
  (forall g1 g2, R g1 g2 ->
     fst (rand g1) = fst (rand g2) /\ R (snd (rand g1)) (snd (rand g2)))
  /\ (forall n g1 g2, R g1 g2 ->
        fst (randint n g1) = fst (randint n g2)
        /\ R (snd (randint n g1)) (snd (randint n g2))).

(** Same exception, or same value and interchangeable generators. *)
Definition agree {G1 G2 : Type} (R : G1 -> G2 -> Prop) {A : Type}
    (x : result (A * G1)) (y : result (A * G2)) : Prop :=
  match x, y with
  | inl a, inl b => a = b
  | inr (a, g1), inr (b, g2) => a = b /\ R g1 g2
  | _, _ => False
  end.




(** Line 25: the sliders give competitors only in wargame mode. *)
Definition sliders_consistent (p : Params) : Prop :=
  wargame_mode p = false -> competitors p = [].

(** The list of counts when the competitor loop reaches index [i]. *)
Definition counts_at (comps : list Competitor) (cc : list Q) (i : nat)
  : list Q :=
  firstn i (spec_compounded comps cc) ++ skipn i cc.

(** ** The rest of the scripts *)

(** *** Reading the tally against the histories *)

(** The events a history records, oldest first. *)
Fixpoint events_of (history : list MonthRecord) : list event_type :=
  match history with
  | [] => []
  | r :: history' =>
      match m_event r with
      | Some e => e :: events_of history'
      | None => events_of history'
      end
  end.

(** The events of all the trials of a run, in the order they fired. *)
Definition all_events (results : list TrialResult) : list event_type :=
  flat_map (fun r => events_of (data r)) results.

(** Line 66 repeated for a list of events. *)
Definition tally_all (event_counts : dict) (events : list event_type) : dict :=
  fold_left (fun d e => tally d (Some e)) events event_counts.

(** How many times [k] is in [events]. *)
Fixpoint occurrences (k : event_type) (events : list event_type) : nat :=
  match events with
  | [] => O
  | e :: events' =>
      if event_eqb k e then S (occurrences k events')
      else occurrences k events'
  end.

(** Line 111: [sum(event_counts.values())]. *)
Definition sum_values (event_counts : dict) : Z :=
  fold_left Z.add (dict_values event_counts) 0%Z.

(** A run of two trials with 3 events, 2 fundings and 1 critical bug. *)
Definition params_eventful : Params :=
  {| cash_start := 20000; burn_rate := 5000; market_shock_prob := 10;
     event_chance := 20; wargame_mode := false; competitors := [];
     total_months := 2; num_simulations := 2 |}.

Definition tape_eventful : list Z :=
  [50; 10; 0; 50; 10; 2; 50; 50; 50; 10; 4]%Z.

(** Two months against two competitors. *)
Definition params_duel : Params :=
  {| cash_start := 20000; burn_rate := 5000; market_shock_prob := 10;
     event_chance := 20; wargame_mode := true;
     competitors := [ {| growth := 25; aggressiveness := 30 |};
                      {| growth := 25; aggressiveness := 30 |} ];
     total_months := 2; num_simulations := 1 |}.

(** Both sliders of probability at 100. *)
Definition params_always : Params :=
  {| cash_start := 20000; burn_rate := 5000; market_shock_prob := 100;
     event_chance := 100; wargame_mode := false; competitors := [];
     total_months := 2; num_simulations := 1 |}.

(** *** Cash, month after month *)

(** Line 68: what an event adds to the cash of its month. *)
Definition funding_of (event : option event_type) : Q :=
  match event with
  | Some LeveeDeFonds => 20000
  | _ => 0
  end.

(** Every month's cash is the previous one, plus the funding of the
    month if any, plus ten per client, minus the burn. *)
Fixpoint cash_accounting (p : Params) (cash_prev : Q)
    (history : list MonthRecord) : Prop :=
  match history with
  | [] => True
  | r :: history' =>
      m_cash r
      == cash_prev + funding_of (m_event r) + m_clients r * 10 - burn_rate p
      /\ cash_accounting p (m_cash r) history'
  end.

(** *** Competitors, month after month *)

(** A count [c] compounded [m] times by [1 + g/100] (line 60). *)
Fixpoint compounded_times (c g : Q) (m : nat) : Q :=
  match m with
  | O => c
  | S m' => compounded_times c g m' * (1 + g / 100)
  end.

(** The competitors' counts after [m] months: compounded in wargame
    mode, untouched otherwise. *)
Definition competitors_after (p : Params) (m : nat) : list Q :=
  map (fun comp =>
         if wargame_mode p then compounded_times 100 (growth comp) m
         else 100)
      (competitors p).

(** *** The engine of [app3.py]

    Lines 40-97 of [src/app3.py]: the engine of [analysis.py] without
    the tally of events. *)

Module App3.

Section Engine.

Context {G : Type} `{RandomState G}.

(** Lines 51-88. *)
Definition month_body (p : Params) (month : Z) (st : TrialState) (g : G)
  : result (TrialState * MonthRecord * G) :=
  let '(u1, g1) := rand g in
  let shock := Qltb u1 (market_shock_prob p / 100) in
  let '(u2, g2) := rand g1 in
  let event_triggered := Qltb u2 (event_chance p / 100) in
  let effective_growth := base_growth (growth_rate st) shock in
  '(comp_clients', effective_growth') <-
     (if wargame_mode p
      then competitors_loop 0 (competitors p) (clients st) (comp_clients st)
             effective_growth
      else ret (comp_clients st, effective_growth)) ;;
  let '(event, st1, g3) :=
    if event_triggered then
      let '(e, g3) := choice event_names LeveeDeFonds g2 in
      (Some e, apply_event e st, g3)
    else (None, st, g2) in
  let '(st', r) :=
    update_and_record p month st1 comp_clients' effective_growth' shock event in
  ret (st', r, g3).

(** Lines 50-91. *)
Fixpoint months_loop (p : Params) (n : nat) (month : Z) (st : TrialState)
    (history : list MonthRecord) (g : G)
  : result (TrialState * list MonthRecord * G) :=
  match n with
  | O => ret (st, history, g)
  | S n' =>
      '(st', r, g') <- month_body p month st g ;;
      let history' := history ++ [r] in
      if Qltb (cash st') 0 then ret (st', history', g')
      else months_loop p n' (month + 1) st' history' g'
  end.

(** Lines 43-95. *)
Definition trial (p : Params) (growth_rate_init retention_init : Q) (g : G)
  : result (TrialResult * G) :=
  '(st, history, g') <-
     months_loop p (Z.to_nat (total_months p)) 0
       (initial_state p growth_rate_init retention_init) [] g ;;
  let final_cash := cash st in
  let success := Qltb 0 final_cash in
  ret ({| succes := success; cash_final := final_cash;
          duree := Z.of_nat (length history); data := history |}, g').

(** Lines 42-95. *)
Fixpoint trials_loop (p : Params) (growth_rate_init retention_init : Q)
    (n : nat) (results : list TrialResult) (g : G)
  : result (list TrialResult * G) :=
  match n with
  | O => ret (results, g)
  | S n' =>
      '(r, g') <- trial p growth_rate_init retention_init g ;;
      trials_loop p growth_rate_init retention_init n' (results ++ [r]) g'
  end.

(** Lines 40-97. *)
Definition run_simulation (p : Params) (growth_rate_init retention_init : Q)
    (g : G) : result (list TrialResult * G) :=
  trials_loop p growth_rate_init retention_init
    (Z.to_nat (num_simulations p)) [] g.

End Engine.

(** Lines 133-138: the three recommendations. *)
Inductive recommendation : Type :=
| BonneProbabilite
| ModeleFragile
| ModeleTropRisque.

(** Lines 105 and 133-138; a [nan] rate compares false with everything. *)
Definition recommend (success_rate : option Q) : recommendation :=
  match success_rate with
  | Some sr =>
      if Qltb 70 sr then BonneProbabilite
      else if Qltb 40 sr then ModeleFragile
      else ModeleTropRisque
  | None => ModeleTropRisque
  end.

(** Lines 105-138 on the results of the run: the survival rate, the
    example trajectory [sim_data[0]] and the recommendation. *)
Definition report (sim_data : list TrialResult)
  : result (option Q * recommendation) :=
  let success_rate :=
    option_map (fun m => m * 100)
      (np_mean (map (fun s => bool_to_Q (succes s)) sim_data)) in
  match sim_data with
  | [] => raise IndexError
  | _ :: _ => ret (success_rate, recommend success_rate)
  end.

End App3.
(** * Proofs *)

(** Split a conjunction into its parts, and nothing else. *)
Ltac split_all := repeat match goal with |- _ /\ _ => split end.

(** ** Basic facts *)

Lemma Qltb_lt (x y : Q) : Qltb x y = true <-> x < y.
Proof.
  unfold Qltb. rewrite negb_true_iff. split.
  - intros E. apply Qnot_le_lt. intros L.
    apply Qle_bool_iff in L. congruence.
  - intros L. destruct (Qle_bool y x) eqn:E; [|reflexivity].
    apply Qle_bool_iff in E. lra.
Qed.

Lemma Qltb_ge (x y : Q) : Qltb x y = false <-> y <= x.
Proof.
  unfold Qltb. rewrite negb_false_iff. apply Qle_bool_iff.
Qed.

Lemma tape_rand_range (t : list Z) :
  0 <= fst (tape_rand t) /\ fst (tape_rand t) < 1.
Proof.
  destruct t as [|z t]; simpl; [lra|].
  pose proof (Z.mod_pos_bound z 100 eq_refl) as [L U].
  split.
  - apply Qle_shift_div_l; [reflexivity|].
    rewrite Qmult_0_l. change 0 with (inject_Z 0). rewrite <- Zle_Qle. exact L.
  - apply Qlt_shift_div_r; [reflexivity|].
    rewrite Qmult_1_l. change 100 with (inject_Z 100).
    rewrite <- Zlt_Qlt. exact U.
Qed.

Lemma tape_randint_range (n : nat) (t : list Z) :
  (0 < n)%nat -> (fst (tape_randint n t) < n)%nat.
Proof.
  intros Hn. destruct t as [|z t]; simpl; [exact Hn|].
  pose proof (Z.mod_pos_bound z (Z.of_nat n)) as B. lia.
Qed.

#[export] Instance tape_random_laws : RandomLaws (list Z).
Proof.
  split; [exact tape_rand_range | exact tape_randint_range].
Qed.

(** ** The month's body *)

Section EngineFacts.

Context {G : Type} `{RandomState G}.

Lemma month_body_split (p : Params) (month : Z) (st : TrialState)
    (ec : dict) (g : G) :
  month_body p month st ec g =
  let '(shock, event, g') := month_draws p g in
  '(st', r) <- month_step p month st shock event ;;
  ret (st', r, tally ec event, g').
Proof.
  unfold month_body, month_draws, month_step.
  destruct (rand g) as [u1 g1]. destruct (rand g1) as [u2 g2].
  destruct (Qltb u2 (event_chance p / 100)).
  - destruct (choice event_names LeveeDeFonds g2) as [e g3].
    destruct (wargame_mode p); simpl.
    + destruct (competitors_loop _ _ _ _ _) as [x|[cc eg]]; reflexivity.
    + reflexivity.
  - destruct (wargame_mode p); simpl.
    + destruct (competitors_loop _ _ _ _ _) as [x|[cc eg]]; reflexivity.
    + reflexivity.
Qed.

(** The history entry of a month is a snapshot of the state it leaves. *)
Lemma month_step_record (p : Params) (month : Z) (st st' : TrialState)
    (shock : bool) (event : option event_type) (r : MonthRecord) :
  month_step p month st shock event = inr (st', r) ->
  mois r = (month + 1)%Z /\ m_cash r = cash st' /\ m_clients r = clients st'
  /\ m_shock r = shock /\ m_event r = event
  /\ m_competitors r = comp_clients st'.
Proof.
  unfold month_step. intros E.
  destruct (if wargame_mode p then _ else _) as [x|[cc eg]]; simpl in E;
    [discriminate|].
  unfold update_and_record, ret in E. inversion E; subst; simpl. tauto.
Qed.

Lemma month_body_record (p : Params) (month : Z) (st st' : TrialState)
    (ec ec' : dict) (g g' : G) (r : MonthRecord) :
  month_body p month st ec g = inr (st', r, ec', g') ->
  mois r = (month + 1)%Z /\ m_cash r = cash st'.
Proof.
  rewrite month_body_split.
  destruct (month_draws p g) as [[shock event] g1].
  destruct (month_step p month st shock event) as [x|[st1 r1]] eqn:E;
    simpl; [discriminate|].
  intros E'. inversion E'; subst.
  apply month_step_record in E. tauto.
Qed.

(** What [months_loop] adds to the history: at most [n] entries, numbered
    from [month + 1]; every entry but the last has a cash that is not
    negative; the last one carries the final cash; and when fewer than
    [n] entries were added the final cash is negative. *)
Lemma months_loop_history (p : Params) (n : nat) :
  forall (month : Z) (st : TrialState) (history : list MonthRecord)
         (ec : dict) (g : G) st' history' ec' g',
  months_loop p n month st history ec g = inr (st', history', ec', g') ->
  exists new : list MonthRecord,
    history' = history ++ new
    /\ (length new <= n)%nat
    /\ (new = [] -> st' = st /\ n = O)
    /\ (forall d, new <> [] -> m_cash (last new d) = cash st')
    /\ ((length new < n)%nat -> cash st' < 0)
    /\ (forall i d, (S i < length new)%nat -> 0 <= m_cash (nth i new d))
    /\ (forall i d, (i < length new)%nat ->
          mois (nth i new d) = (month + Z.of_nat i + 1)%Z).
Proof.
  induction n as [|n IH]; intros month st history ec g st' history' ec' g' E.
  - simpl in E. inversion E; subst. exists []. rewrite app_nil_r.
    simpl. split_all; intros; try lia; try congruence. split; reflexivity.
  - simpl in E.
    destruct (month_body p month st ec g) as [x|[[[st1 r] ec1] g1]] eqn:B;
      simpl in E; [discriminate|].
    apply month_body_record in B. destruct B as [Bm Bc].
    destruct (Qltb (cash st1) 0) eqn:Neg.
    + apply Qltb_lt in Neg.
      inversion E; subst st1 history' ec1 g1. exists [r]. simpl.
      split_all; intros; try lia; try congruence.
      destruct i; [|lia]. rewrite Bm. lia.
    + apply IH in E.
      destruct E as (new & Eh & Ln & Em & El & Es & Ep & En).
      exists (r :: new). rewrite Eh, <- app_assoc. simpl.
      apply Qltb_ge in Neg.
      split_all; try lia; try congruence.
      * intros d _. destruct new as [|r' new'].
        -- destruct (Em eq_refl) as [-> _]. exact Bc.
        -- apply (El d). congruence.
      * intros L. apply Es. lia.
      * intros i d L. destruct i as [|i].
        -- rewrite Bc. exact Neg.
        -- apply Ep. lia.
      * intros i d L. destruct i as [|i]; [rewrite Bm; lia|].
        rewrite En by lia. lia.
Qed.

End EngineFacts.

(** ** Trials *)

Section TrialFacts.

Context {G : Type} `{RandomState G}.

Lemma trial_has_shape (p : Params) (gi ri : Q) (ec ec' : dict) (g g' : G)
    (r : TrialResult) :
  trial p gi ri ec g = inr (r, ec', g') -> trial_shape p r.
Proof.
  unfold trial. intros E.
  destruct (months_loop _ _ _ _ _ _ _) as [x|[[[st h] ec1] g1]] eqn:L;
    simpl in E; [discriminate|].
  inversion E; subst r ec1 g1. clear E.
  apply months_loop_history in L.
  destruct L as (new & Eh & Ln & Em & El & Es & Ep & En).
  simpl in Eh. subst h. unfold trial_shape. simpl.
  split_all; auto.
  intros ->. destruct (Em eq_refl) as [-> ->]. split; reflexivity.
Qed.

Lemma trials_loop_results (P : TrialResult -> Prop) (p : Params)
    (gi ri : Q) :
  (forall ec g r ec' g', trial p gi ri ec g = inr (r, ec', g') -> P r) ->
  forall (n : nat) results ec g results' ec' g',
  trials_loop p gi ri n results ec g = inr (results', ec', g') ->
  Forall P results ->
  Forall P results' /\ length results' = (length results + n)%nat.
Proof.
  intros HP. induction n as [|n IH]; intros results ec g results' ec' g' E F.
  - simpl in E. inversion E; subst. split; [exact F|lia].
  - simpl in E.
    destruct (trial p gi ri ec g) as [x|[[r ec1] g1]] eqn:T; simpl in E;
      [discriminate|].
    apply IH in E.
    + destruct E as [F' L]. split; [exact F'|].
      rewrite L, length_app. simpl. lia.
    + apply Forall_app. split; [exact F|].
      constructor; [|constructor]. eapply HP. exact T.
Qed.

(** Every trial result returned by [run_simulation] has the shape above,
    and there are [num_simulations] of them. *)
Lemma run_simulation_results (p : Params) (gi ri : Q) (g g' : G)
    (results : list TrialResult) (ec : dict) :
  run_simulation p gi ri g = inr (results, ec, g') ->
  Forall (trial_shape p) results
  /\ length results = Z.to_nat (num_simulations p).
Proof.
  unfold run_simulation. intros E.
  apply (trials_loop_results (trial_shape p)) in E.
  - exact E.
  - intros ec0 g0 r ec1 g1. apply trial_has_shape.
  - constructor.
Qed.

End TrialFacts.

(** ** Early stop, duration and success *)

(** C3. A trial stops at the horizon or right after the first month that
    leaves a negative cash: the duration is the length of the history and
    is at most [total_months]; no month is recorded after one with a
    negative cash; and a non-empty history shorter than the horizon ends
    on a negative cash. *)
Theorem early_stop_invariant {G : Type} `{RandomState G} (p : Params)
    (gi ri : Q) (g g' : G) (results : list TrialResult) (ec : dict)
    (r : TrialResult) :
  (0 <= total_months p)%Z ->
  run_simulation p gi ri g = inr (results, ec, g') ->
  In r results ->
  duree r = Z.of_nat (length (data r))
  /\ (duree r <= total_months p)%Z
  /\ (forall i d, (S i < length (data r))%nat ->
        ~ m_cash (nth i (data r) d) < 0)
  /\ (forall d, data r <> [] -> (duree r < total_months p)%Z ->
        m_cash (last (data r) d) < 0)
  /\ ((duree r < total_months p)%Z -> data r <> []).
Proof.
  intros Hm E I.
  apply run_simulation_results in E. destruct E as [F _].
  rewrite Forall_forall in F. specialize (F r I).
  destruct F as (_ & Hd & Hl & Hnil & Hlast & Hshort & Hpos & _).
  split_all.
  - exact Hd.
  - rewrite Hd. lia.
  - intros i d L N. specialize (Hpos i d L).
    apply (Qlt_irrefl 0). eapply Qle_lt_trans; eassumption.
  - intros d Hne Hlt. rewrite Hlast by exact Hne. apply Hshort.
    rewrite Hd in Hlt. lia.
  - intros Hlt Hn. destruct (Hnil Hn) as [_ Hz].
    rewrite Hd, Hn in Hlt. simpl in Hlt. lia.
Qed.

Lemma early_stop_invariant_witness :
  exists r : TrialResult,
    duree r = 1%Z
    /\ duree r = Z.of_nat (length (data r))
    /\ (duree r <= total_months params_short)%Z
    /\ (forall i d, (S i < length (data r))%nat ->
          ~ m_cash (nth i (data r) d) < 0)
    /\ (forall d, data r <> [] -> (duree r < total_months params_short)%Z ->
          m_cash (last (data r) d) < 0)
    /\ ((duree r < total_months params_short)%Z -> data r <> []).
Proof.
  destruct (run_simulation params_short 20 80 [50; 50; 50; 50]%Z)
    as [x|[[results ec] g']] eqn:E; [vm_compute in E; discriminate|].
  exists (hd {| succes := false; cash_final := 0; duree := 0; data := [] |}
            results).
  split.
  - vm_compute in E. inversion E. reflexivity.
  - apply (early_stop_invariant params_short 20 80 [50; 50; 50; 50]%Z g'
             results ec).
    + simpl. lia.
    + exact E.
    + vm_compute in E. inversion E. simpl. left. reflexivity.
Defined.

(** C4. The success flag of a trial is true exactly when its final cash
    is strictly positive; a final cash of zero is a failure. The final
    cash is the cash recorded for the last simulated month. *)
Theorem success_iff_positive_cash {G : Type} `{RandomState G} (p : Params)
    (gi ri : Q) (g g' : G) (results : list TrialResult) (ec : dict)
    (r : TrialResult) :
  run_simulation p gi ri g = inr (results, ec, g') ->
  In r results ->
  (succes r = true <-> 0 < cash_final r)
  /\ (cash_final r == 0 -> succes r = false)
  /\ (forall d, data r <> [] -> cash_final r = m_cash (last (data r) d)).
Proof.
  intros E I.
  apply run_simulation_results in E. destruct E as [F _].
  rewrite Forall_forall in F. specialize (F r I).
  destruct F as (Hs & _ & _ & _ & Hlast & _).
  split_all.
  - rewrite Hs. apply Qltb_lt.
  - intros Z0. rewrite Hs. apply Qltb_ge. lra.
  - intros d Hne. symmetry. apply Hlast, Hne.
Qed.

(** C10. A trial that succeeds ran until the horizon: an early stop
    leaves a negative cash, hence a failure. *)
Theorem success_implies_full_horizon {G : Type} `{RandomState G}
    (p : Params) (gi ri : Q) (g g' : G) (results : list TrialResult)
    (ec : dict) (r : TrialResult) :
  (0 <= total_months p)%Z ->
  run_simulation p gi ri g = inr (results, ec, g') ->
  In r results ->
  succes r = true ->
  duree r = total_months p.
Proof.
  intros Hm E I S.
  apply run_simulation_results in E. destruct E as [F _].
  rewrite Forall_forall in F. specialize (F r I).
  destruct F as (Hs & Hd & Hl & _ & _ & Hshort & _).
  rewrite Hs in S. apply Qltb_lt in S.
  destruct (Nat.eq_dec (length (data r)) (Z.to_nat (total_months p)))
    as [Eq|Ne].
  - rewrite Hd, Eq. lia.
  - assert (L : (length (data r) < Z.to_nat (total_months p))%nat) by lia.
    apply Hshort in L. lra.
Qed.

Lemma success_iff_positive_cash_witness :
  exists r : TrialResult,
    cash_final r == 0
    /\ (succes r = true <-> 0 < cash_final r)
    /\ (cash_final r == 0 -> succes r = false)
    /\ (forall d, data r <> [] -> cash_final r = m_cash (last (data r) d)).
Proof.
  destruct (run_simulation params_zero 20 80 ([] : list Z))
    as [x|[[results ec] g']] eqn:E; [vm_compute in E; discriminate|].
  exists (hd result_default results). split.
  - vm_compute in E. inversion E. reflexivity.
  - apply (success_iff_positive_cash params_zero 20 80 [] g' results ec).
    + exact E.
    + vm_compute in E. inversion E. simpl. left. reflexivity.
Defined.

Lemma success_implies_full_horizon_witness :
  exists r : TrialResult, succes r = true /\ duree r = 3%Z.
Proof.
  destruct (run_simulation params_trace 20 80 ([] : list Z))
    as [x|[[results ec] g']] eqn:E; [vm_compute in E; discriminate|].
  exists (hd result_default results).
  assert (S : succes (hd result_default results) = true).
  { vm_compute in E. inversion E. reflexivity. }
  split; [exact S|].
  apply (success_implies_full_horizon params_trace 20 80 [] g' results ec).
  - simpl. lia.
  - exact E.
  - vm_compute in E. inversion E. simpl. left. reflexivity.
  - exact S.
Defined.

(** A trial that reaches the horizon may end on any sign of cash. *)
Example full_horizon_positive_cash :
  exists r, run_simulation params_trace 20 80 ([] : list Z) = inr ([r], [], [])
    /\ duree r = total_months params_trace /\ 0 < cash_final r.
Proof.
  eexists. split; [vm_compute; reflexivity|]. split; reflexivity.
Qed.

Example full_horizon_zero_cash :
  exists r, run_simulation params_zero 20 80 ([] : list Z) = inr ([r], [], [])
    /\ duree r = total_months params_zero /\ cash_final r == 0
    /\ succes r = false.
Proof.
  eexists. split; [vm_compute; reflexivity|]. repeat split.
Qed.

Example full_horizon_negative_cash :
  exists r,
    run_simulation
      {| cash_start := 1000; burn_rate := 5000; market_shock_prob := 0;
         event_chance := 0; wargame_mode := false; competitors := [];
         total_months := 1; num_simulations := 1 |} 20 80 ([] : list Z)
    = inr ([r], [], [])
    /\ duree r = 1%Z /\ cash_final r < 0.
Proof.
  eexists. split; [vm_compute; reflexivity|]. split; reflexivity.
Qed.

(** ** The quiet case: no shock, no event, no competitor *)

Section Quiet.

Context {G : Type} `{RandomLaws G}.

Variable p : Params.
Hypothesis no_shock : market_shock_prob p == 0.
Hypothesis no_event : event_chance p == 0.
Hypothesis no_competitor : competitors p = [].








End Quiet.



(** The clients of the witness grow by a fifth every month. *)
Example quiet_trace_growing :
  map (fun r => (mois r, Qred (m_clients r), Qred (m_cash r)))
    (data (quiet_trial params_growing 30 90))
  = [(1%Z, 120, 16200); (2%Z, 144, 12640); (3%Z, 864 # 5, 9368)].
Proof. vm_compute. reflexivity. Qed.


(** The trace of the specification is exact on binary64 too. *)
Example quiet_trace_on_floats :
  snd (Binary64.quiet_months 3 20000 100 20 80 5000 [])
  = [(16000, 100); (12000, 100); (8000, 100)]%float.
Proof. vm_compute. reflexivity. Qed.

(** The three-month trace of the specification. *)
Example quiet_trace_by_hand :
  map (fun r => (mois r, Qred (m_clients r), Qred (m_cash r)))
    (data (quiet_trial params_trace 20 80))
  = [(1%Z, 100, 16000); (2%Z, 100, 12000); (3%Z, 100, 8000)].
Proof. vm_compute. reflexivity. Qed.

(** ** Strategic events *)

(** Each event name sits at exactly one index of the list given to
    [np.random.choice], so a uniform index is a uniform event. *)
Lemma event_names_one_index (e : event_type) :
  exists! j : nat, (j < 4)%nat /\ nth j event_names LeveeDeFonds = e.
Proof.
  destruct e;
    [exists 0%nat | exists 1%nat | exists 2%nat | exists 3%nat];
    (split; [split; [lia|reflexivity]|]);
    intros j [Hj E];
    (destruct j as [|[|[|[|j]]]]; simpl in E;
     try discriminate; try reflexivity; lia).
Qed.

Lemma after_events_rates (events : list (option event_type)) :
  forall s1 s2 : TrialState,
  growth_rate s1 = growth_rate s2 -> retention s1 = retention s2 ->
  growth_rate (after_events events s1) = growth_rate (after_events events s2)
  /\ retention (after_events events s1) = retention (after_events events s2).
Proof.
  induction events as [|ev events IH]; intros s1 s2 Hg Hr; simpl.
  - split; assumption.
  - apply IH; destruct ev as [[] |]; simpl; congruence.
Qed.

Lemma month_step_effects (p : Params) (month : Z) (st st' : TrialState)
    (shock : bool) (event : option event_type) (r : MonthRecord) :
  month_step p month st shock event = inr (st', r) ->
  growth_rate st' = growth_rate (after_event event st)
  /\ retention st' = retention (after_event event st)
  /\ m_cash r
     == cash (after_event event st) + m_clients r * 10 - burn_rate p.
Proof.
  unfold month_step. intros E.
  destruct (if wargame_mode p then _ else _) as [x|[cc eg]]; simpl in E;
    [discriminate|].
  unfold update_and_record, ret in E. inversion E; subst; simpl.
  split_all; try reflexivity. ring.
Qed.

Section Events.

Context {G : Type} `{RandomState G}.

Lemma month_draws_triggered (p : Params) (g : G) :
  fst (rand (snd (rand g))) < event_chance p / 100 ->
  month_draws p g =
  (Qltb (fst (rand g)) (market_shock_prob p / 100),
   Some (nth (fst (randint 4 (snd (rand (snd (rand g))))))
           event_names LeveeDeFonds),
   snd (randint 4 (snd (rand (snd (rand g)))))).
Proof.
  unfold month_draws, choice. intros T.
  destruct (rand g) as [u1 g1]. simpl in *.
  destruct (rand g1) as [u2 g2]. simpl in *.
  apply Qltb_lt in T. rewrite T.
  destruct (randint 4 g2) as [i g3]. reflexivity.
Qed.

Lemma month_draws_not_triggered (p : Params) (g : G) :
  event_chance p / 100 <= fst (rand (snd (rand g))) ->
  month_draws p g =
  (Qltb (fst (rand g)) (market_shock_prob p / 100), None,
   snd (rand (snd (rand g)))).
Proof.
  unfold month_draws. intros T.
  destruct (rand g) as [u1 g1]. simpl in *.
  destruct (rand g1) as [u2 g2]. simpl in *.
  apply Qltb_ge in T. rewrite T. reflexivity.
Qed.

(** The rates a run of months ends with are the rates it started with,
    changed by the events its history records and by nothing else. *)
Lemma months_loop_events (p : Params) (n : nat) :
  forall (month : Z) (st : TrialState) (history : list MonthRecord)
         (ec : dict) (g : G) st' history' ec' g',
  months_loop p n month st history ec g = inr (st', history', ec', g') ->
  exists new : list MonthRecord,
    history' = history ++ new
    /\ growth_rate st' = growth_rate (after_events (map m_event new) st)
    /\ retention st' = retention (after_events (map m_event new) st).
Proof.
  induction n as [|n IH]; intros month st history ec g st' history' ec' g' E.
  - simpl in E. inversion E; subst. exists []. rewrite app_nil_r.
    simpl. auto.
  - simpl in E. rewrite month_body_split in E.
    destruct (month_draws p g) as [[shock event] g1].
    destruct (month_step p month st shock event) as [x|[st1 r]] eqn:S;
      simpl in E; [discriminate|].
    pose proof (month_step_record _ _ _ _ _ _ _ S) as (_ & _ & _ & _ & Ev & _).
    apply month_step_effects in S. destruct S as (Sg & Sr & _).
    destruct (Qltb (cash st1) 0).
    + inversion E; subst st1 history' ec' g1. exists [r]. simpl.
      rewrite Ev. auto.
    + apply IH in E. destruct E as (new & Eh & Eg & Er).
      exists (r :: new). rewrite Eh, <- app_assoc. simpl. rewrite Ev.
      destruct (after_events_rates (map m_event new) st1
                  (after_event event st) Sg Sr) as [Ag Ar].
      split_all; [reflexivity | congruence | congruence].
Qed.

End Events.

(** C6. In a month whose event draw triggers, one event is taken from the
    four names by an index drawn in [range(4)] (each name has exactly one
    index), it is recorded and tallied, and its effect is the one of the
    table: 20000 more cash for a funding (in this month's cash only), the
    growth rate times 1.2 for a partnership, the retention times 0.9 for
    a critical bug, the growth rate times 0.7 for a reputation crisis.
    The changed rates are those of the state the next months start from:
    whatever follows, the rates are these ones changed only by the events
    recorded later. *)
Theorem strategic_event_applied {G : Type} `{RandomLaws G} (p : Params)
    (month : Z) (st st' : TrialState) (ec ec' : dict) (g g' : G)
    (r : MonthRecord) :
  month_body p month st ec g = inr (st', r, ec', g') ->
  fst (rand (snd (rand g))) < event_chance p / 100 ->
  let g2 := snd (rand (snd (rand g))) in
  let i := fst (randint 4 g2) in
  let e := nth i event_names LeveeDeFonds in
  (i < 4)%nat
  /\ (forall e', exists! j, (j < 4)%nat /\ nth j event_names LeveeDeFonds = e')
  /\ m_event r = Some e
  /\ g' = snd (randint 4 g2)
  /\ ec' = dict_set ec e (dict_get ec e 0 + 1)%Z
  /\ match e with
     | LeveeDeFonds =>
         growth_rate st' = growth_rate st /\ retention st' = retention st
         /\ m_cash r == cash st + 20000 + m_clients r * 10 - burn_rate p
     | PartenariatStrategique =>
         growth_rate st' = growth_rate st * (12 # 10)
         /\ retention st' = retention st
         /\ m_cash r == cash st + m_clients r * 10 - burn_rate p
     | BugCritique =>
         growth_rate st' = growth_rate st
         /\ retention st' = retention st * (9 # 10)
         /\ m_cash r == cash st + m_clients r * 10 - burn_rate p
     | CriseReputationnelle =>
         growth_rate st' = growth_rate st * (7 # 10)
         /\ retention st' = retention st
         /\ m_cash r == cash st + m_clients r * 10 - burn_rate p
     end
  /\ (forall n month2 history2 ec2 g3 st2 history2' ec2' g3',
        months_loop p n month2 st' history2 ec2 g3
        = inr (st2, history2', ec2', g3') ->
        exists new : list MonthRecord,
          history2' = history2 ++ new
          /\ growth_rate st2
             = growth_rate (after_events (map m_event new) st')
          /\ retention st2
             = retention (after_events (map m_event new) st')).
Proof.
  intros E T g2 i e.
  rewrite month_body_split, (month_draws_triggered p g T) in E.
  fold g2 in E. fold i in E. fold e in E.
  destruct (month_step p month st _ (Some e)) as [x|[st1 r1]] eqn:S;
    simpl in E; [discriminate|].
  inversion E; subst st1 r1 ec' g'. clear E.
  pose proof (month_step_record _ _ _ _ _ _ _ S) as (_ & _ & _ & _ & Ev & _).
  apply month_step_effects in S. destruct S as (Sg & Sr & Sc).
  split_all.
  - apply randint_range. lia.
  - apply event_names_one_index.
  - exact Ev.
  - reflexivity.
  - reflexivity.
  - destruct e; simpl in Sg, Sr, Sc; split_all; auto.
  - intros n month2 history2 ec2 g3 st2 history2' ec2' g3'.
    apply months_loop_events.
Qed.

Lemma strategic_event_applied_witness :
  exists (st' : TrialState) (r : MonthRecord),
    month_body params_short 0 (initial_state params_short 20 80) []
      [50; 10; 1]%Z
    = inr (st', r, [(PartenariatStrategique, 1%Z)], [])
    /\ m_event r = Some PartenariatStrategique
    /\ growth_rate st' = 20 * (12 # 10)
    /\ retention st' = 80.
Proof.
  destruct (month_body params_short 0 (initial_state params_short 20 80) []
              [50; 10; 1]%Z) as [x|[[[st' r] ec'] g']] eqn:E;
    [vm_compute in E; discriminate|].
  assert (T : fst (rand (snd (rand [50; 10; 1]%Z)))
              < event_chance params_short / 100)
    by (vm_compute; reflexivity).
  destruct (strategic_event_applied params_short 0 _ st' [] ec' _ g' r E T)
    as (_ & _ & Ev & Eg & Ec & Eff & _).
  exists st', r. simpl in Ev, Eg, Ec, Eff.
  destruct Eff as (Hg & Hr & _).
  subst ec' g'. split_all; auto.
Defined.

(** ** Market shock *)








(** ** Competitors *)

Lemma skipn_nth_error {A : Type} (l : list A) :
  forall (i : nat) (x : A),
  nth_error l i = Some x -> skipn i l = x :: skipn (S i) l.
Proof.
  induction l as [|a l IH]; intros [|i] x E; simpl in E; try discriminate.
  - inversion E. reflexivity.
  - apply IH in E. exact E.
Qed.

Lemma firstn_nth_error {A : Type} (l : list A) :
  forall (i : nat) (x : A),
  nth_error l i = Some x -> firstn (S i) l = firstn i l ++ [x].
Proof.
  induction l as [|a l IH]; intros [|i] x E; simpl in E; try discriminate.
  - inversion E. reflexivity.
  - apply IH in E. simpl in *. rewrite E. reflexivity.
Qed.

Lemma nth_error_middle (done todo : list Q) (c : Q) :
  nth_error (done ++ c :: todo) (length done) = Some c.
Proof. induction done as [|d done IH]; simpl; auto. Qed.

Lemma list_set_middle (done todo : list Q) (c v : Q) :
  list_set (done ++ c :: todo) (length done) v = done ++ v :: todo.
Proof.
  induction done as [|d done IH]; simpl; [reflexivity|].
  rewrite IH. reflexivity.
Qed.

Lemma list_set_length (l : list Q) :
  forall (i : nat) (v : Q), length (list_set l i v) = length l.
Proof.
  induction l as [|a l IH]; intros [|i] v; simpl; auto.
Qed.

Lemma spec_compounded_length (comps : list Competitor) :
  forall cc : list Q, length (spec_compounded comps cc) = length cc.
Proof.
  induction comps as [|comp comps IH]; intros [|c cc]; simpl; auto.
Qed.

Lemma spec_compounded_nth_error (comps : list Competitor) :
  forall (cc : list Q) (i : nat) (comp : Competitor) (c : Q),
  nth_error comps i = Some comp -> nth_error cc i = Some c ->
  nth_error (spec_compounded comps cc) i
  = Some (c * (1 + growth comp / 100)).
Proof.
  induction comps as [|a comps IH]; intros [|b cc] [|i] comp c E1 E2;
    simpl in *; try discriminate.
  - inversion E1; inversion E2; subst. reflexivity.
  - apply IH; assumption.
Qed.

Lemma fold_left_Qplus (l : list Q) :
  forall a : Q, fold_left Qplus l a == a + spec_total l.
Proof.
  induction l as [|x l IH]; intros a; simpl.
  - ring.
  - rewrite IH. ring.
Qed.

Lemma py_sum_total (l : list Q) : py_sum l == spec_total l.
Proof. unfold py_sum. rewrite fold_left_Qplus. ring. Qed.

Lemma py_max_Qmax (a b : Q) : py_max a b == Qmax a b.
Proof.
  unfold py_max. destruct (Qltb a b) eqn:E.
  - apply Qltb_lt in E. symmetry. apply Q.max_r. lra.
  - apply Qltb_ge in E. symmetry. apply Q.max_l. exact E.
Qed.

Section CompetitorLoop.

Variable comps : list Competitor.
Variable clients : Q.
Variable cc : list Q.
Variable eg0 : Q.

Hypothesis same_length : length cc = length comps.

Hypothesis denominators :
  forall i : nat, (i < length comps)%nat ->
    ~ clients + spec_total (spec_in_progress comps cc i) == 0.

Lemma competitors_loop_from (k : nat) :
  forall (i : nat) (eg : Q),
  (i + k = length comps)%nat ->
  eg == spec_effective_growth comps clients cc eg0 i ->
  exists eg' : Q,
    competitors_loop i (skipn i comps) clients (counts_at comps cc i) eg
    = inr (spec_compounded comps cc, eg')
    /\ eg' == spec_effective_growth comps clients cc eg0 (length comps).
Proof.
  induction k as [|k IH]; intros i eg Hi He.
  - assert (i = length comps) by lia. subst i.
    rewrite skipn_all. unfold counts_at.
    rewrite firstn_all2 by (rewrite spec_compounded_length; lia).
    replace (skipn (length comps) cc) with (@nil Q)
      by (rewrite <- same_length, skipn_all; reflexivity).
    rewrite app_nil_r.
    exists eg. split; [reflexivity|exact He].
  - assert (Li : (i < length comps)%nat) by lia.
    destruct (nth_error comps i) as [comp|] eqn:Ecomp;
      [|apply nth_error_None in Ecomp; lia].
    destruct (nth_error cc i) as [c|] eqn:Ec;
      [|apply nth_error_None in Ec; lia].
    pose proof (spec_compounded_nth_error comps cc i comp c Ecomp Ec) as En.
    assert (Lf : length (firstn i (spec_compounded comps cc)) = i).
    { rewrite length_firstn, spec_compounded_length. lia. }
    pose proof (nth_error_middle (firstn i (spec_compounded comps cc))
                  (skipn (S i) cc) c) as Nm.
    pose proof (fun v => list_set_middle (firstn i (spec_compounded comps cc))
                           (skipn (S i) cc) c v) as Sm.
    rewrite Lf in Nm, Sm.
    assert (Ecur : firstn i (spec_compounded comps cc)
                   ++ c * (1 + growth comp / 100) :: skipn (S i) cc
                   = counts_at comps cc (S i)).
    { unfold counts_at. rewrite (firstn_nth_error _ i _ En), <- app_assoc.
      reflexivity. }
    assert (Esum : py_sum (counts_at comps cc (S i))
                   == spec_total (spec_in_progress comps cc i)).
    { rewrite py_sum_total. reflexivity. }
    rewrite (skipn_nth_error comps i comp Ecomp). cbn [competitors_loop].
    change (counts_at comps cc i)
      with (firstn i (spec_compounded comps cc) ++ skipn i cc).
    rewrite (skipn_nth_error cc i c Ec), Nm, Sm, Ecur.
    unfold py_div.
    destruct (Qeq_bool (clients + py_sum (counts_at comps cc (S i))) 0) eqn:Z.
    + exfalso. apply Qeq_bool_iff in Z. apply (denominators i Li).
      rewrite <- Esum. exact Z.
    + cbn [bind ret]. apply IH; [lia|].
      cbn [spec_effective_growth].
      rewrite He, py_max_Qmax. unfold spec_market_share_loss.
      rewrite (nth_error_nth _ _ _ Ecomp), (nth_error_nth _ _ _ En), Esum.
      reflexivity.
Qed.

End CompetitorLoop.

(** What "in progress" means, entry by entry: up to the competitor being
    processed the counts are compounded, after it they are not. *)
Lemma spec_in_progress_nth (comps : list Competitor) (cc : list Q)
    (i j : nat) (comp : Competitor) (c : Q) :
  nth_error comps j = Some comp -> nth_error cc j = Some c ->
  nth_error (spec_in_progress comps cc i) j
  = Some (if (j <=? i)%nat then c * (1 + growth comp / 100) else c).
Proof.
  intros Ecomp Ec. unfold spec_in_progress.
  pose proof (spec_compounded_nth_error comps cc j comp c Ecomp Ec) as En.
  assert (Lj : (j < length cc)%nat) by (apply nth_error_Some; congruence).
  destruct (j <=? i)%nat eqn:J.
  - apply Nat.leb_le in J.
    rewrite nth_error_app1
      by (rewrite length_firstn, spec_compounded_length; lia).
    rewrite nth_error_firstn.
    destruct (Nat.ltb_spec j (S i)); [exact En|lia].
  - apply Nat.leb_gt in J.
    rewrite nth_error_app2
      by (rewrite length_firstn, spec_compounded_length; lia).
    rewrite length_firstn, spec_compounded_length, nth_error_skipn.
    replace (S i + (j - Nat.min (S i) (length cc)))%nat with j by lia.
    exact Ec.
Qed.

(** C8. When there are competitors they are processed in list order.
    Competitor [i] first has its count compounded by [1 + growth/100];
    its market share loss is [aggressiveness/100] times that count over
    the own clients plus the sum of the counts in progress (competitors
    up to [i] compounded, later ones not yet); the month's multiplier is
    multiplied by [max(0, 1 - loss)] for each competitor in turn. *)
Theorem competitors_processed_in_order (p : Params) (month : Z)
    (st : TrialState) (shock : bool) (event : option event_type) :
  sliders_consistent p ->
  competitors p <> [] ->
  length (comp_clients st) = length (competitors p) ->
  (forall i : nat, (i < length (competitors p))%nat ->
     ~ clients st
       + spec_total (spec_in_progress (competitors p) (comp_clients st) i)
       == 0) ->
  exists (eg : Q) (st' : TrialState) (r : MonthRecord),
    competitors_loop 0 (competitors p) (clients st) (comp_clients st)
      (base_growth (growth_rate st) shock)
    = inr (spec_compounded (competitors p) (comp_clients st), eg)
    /\ eg == spec_effective_growth (competitors p) (clients st)
               (comp_clients st) (base_growth (growth_rate st) shock)
               (length (competitors p))
    /\ month_step p month st shock event = inr (st', r)
    /\ comp_clients st' = spec_compounded (competitors p) (comp_clients st)
    /\ m_competitors r = spec_compounded (competitors p) (comp_clients st)
    /\ m_clients r
       == clients st * (retention (after_event event st) / 100)
          + clients st * eg.
Proof.
  intros Hp Hne L D.
  assert (W : wargame_mode p = true).
  { destruct (wargame_mode p) eqn:W; [reflexivity|].
    elim Hne. apply Hp. exact W. }
  destruct (competitors_loop_from (competitors p) (clients st)
              (comp_clients st) (base_growth (growth_rate st) shock) L D
              (length (competitors p)) 0 (base_growth (growth_rate st) shock)
              eq_refl (Qeq_refl _)) as (eg & E & Eg).
  unfold counts_at in E. simpl in E.
  unfold month_step. rewrite W, E. cbn [bind ret].
  assert (C : clients (after_event event st) = clients st)
    by (destruct event as [[] |]; reflexivity).
  unfold update_and_record. rewrite C.
  eexists eg, _, _. split_all; try reflexivity. exact Eg.
Qed.

Lemma competitors_processed_in_order_witness :
  exists (eg : Q) (st' : TrialState) (r : MonthRecord),
    competitors_loop 0 (competitors params_wargame) 100 [100; 100]
      (base_growth 20 true)
    = inr (spec_compounded (competitors params_wargame) [100; 100], eg)
    /\ eg == spec_effective_growth (competitors params_wargame) 100
               [100; 100] (base_growth 20 true) 2
    /\ month_step params_wargame 0 (initial_state params_wargame 20 80)
         true None = inr (st', r)
    /\ comp_clients st'
       = spec_compounded (competitors params_wargame) [100; 100]
    /\ m_competitors r
       = spec_compounded (competitors params_wargame) [100; 100]
    /\ m_clients r == 100 * (80 / 100) + 100 * eg.
Proof.
  apply (competitors_processed_in_order params_wargame 0
           (initial_state params_wargame 20 80) true None).
  - intros W. discriminate W.
  - discriminate.
  - reflexivity.
  - intros [|[|i]] L.
    + vm_compute. discriminate.
    + vm_compute. discriminate.
    + simpl in L. lia.
Defined.

(** The order matters: with the two competitors swapped the multiplier
    of the month is not the same. *)
Example competitor_order_matters :
  let a := {| growth := 50; aggressiveness := 80 |} in
  let b := {| growth := 0; aggressiveness := 10 |} in
  ~ spec_effective_growth [a; b] 100 [100; 100] 1 2
    == spec_effective_growth [b; a] 100 [100; 100] 1 2.
Proof. vm_compute. discriminate. Qed.

(** ** Reproducibility *)

Section Reproducible.

Context {G1 G2 : Type} {RS1 : RandomState G1} {RS2 : RandomState G2}.

Variable R : G1 -> G2 -> Prop.

Hypothesis HR : same_draws R.

Lemma month_draws_agree (p : Params) (g1 : G1) (g2 : G2) :
  R g1 g2 ->
  fst (month_draws p g1) = fst (month_draws p g2)
  /\ R (snd (month_draws p g1)) (snd (month_draws p g2)).
Proof.
  intros H0. unfold month_draws, choice.
  destruct HR as [Hrand Hint].
  destruct (Hrand g1 g2 H0) as [E1 H1].
  destruct (rand g1) as [u1 a1], (rand g2) as [v1 b1]. simpl in E1, H1.
  destruct (Hrand a1 b1 H1) as [E2 H2].
  destruct (rand a1) as [u2 a2], (rand b1) as [v2 b2]. simpl in E2, H2.
  subst v1 v2.
  destruct (Qltb u2 (event_chance p / 100)).
  - destruct (Hint (length event_names) a2 b2 H2) as [E3 H3].
    destruct (randint _ a2) as [i a3], (randint _ b2) as [j b3].
    simpl in E3, H3. subst j. simpl. split; [reflexivity|exact H3].
  - simpl. split; [reflexivity|exact H2].
Qed.

Lemma month_body_agree (p : Params) (month : Z) (st : TrialState)
    (ec : dict) (g1 : G1) (g2 : G2) :
  R g1 g2 ->
  agree R (month_body p month st ec g1) (month_body p month st ec g2).
Proof.
  intros H0. rewrite !month_body_split.
  destruct (month_draws_agree p g1 g2 H0) as [E H1].
  destruct (month_draws p g1) as [[s1 e1] a1].
  destruct (month_draws p g2) as [[s2 e2] b1].
  simpl in E, H1. inversion E; subst s2 e2.
  destruct (month_step p month st s1 e1) as [x|[st' r]]; simpl.
  - reflexivity.
  - split; [reflexivity|exact H1].
Qed.

Lemma months_loop_agree (p : Params) (n : nat) :
  forall (month : Z) (st : TrialState) (history : list MonthRecord)
         (ec : dict) (g1 : G1) (g2 : G2),
  R g1 g2 ->
  agree R (months_loop p n month st history ec g1)
        (months_loop p n month st history ec g2).
Proof.
  induction n as [|n IH]; intros month st history ec g1 g2 H0.
  - simpl. split; [reflexivity|exact H0].
  - cbn [months_loop].
    pose proof (month_body_agree p month st ec g1 g2 H0) as A.
    destruct (month_body p month st ec g1) as [x|[[[st1 r1] ec1] a1]];
      destruct (month_body p month st ec g2) as [y|[[[st2 r2] ec2] b1]];
      simpl in A; try contradiction.
    + simpl. exact A.
    + destruct A as [E H1]. inversion E; subst st2 r2 ec2.
      cbn [bind].
      destruct (Qltb (cash st1) 0).
      * simpl. split; [reflexivity|exact H1].
      * apply IH. exact H1.
Qed.

Lemma trial_agree (p : Params) (gi ri : Q) (ec : dict) (g1 : G1) (g2 : G2) :
  R g1 g2 -> agree R (trial p gi ri ec g1) (trial p gi ri ec g2).
Proof.
  intros H0. unfold trial.
  pose proof (months_loop_agree p (Z.to_nat (total_months p)) 0
                (initial_state p gi ri) [] ec g1 g2 H0) as A.
  destruct (months_loop _ _ _ _ _ _ g1) as [x|[[[st1 h1] ec1] a1]];
    destruct (months_loop _ _ _ _ _ _ g2) as [y|[[[st2 h2] ec2] b1]];
    simpl in A; try contradiction.
  - simpl. exact A.
  - destruct A as [E H1]. inversion E; subst st2 h2 ec2.
    simpl. split; [reflexivity|exact H1].
Qed.

Lemma trials_loop_agree (p : Params) (gi ri : Q) (n : nat) :
  forall (results : list TrialResult) (ec : dict) (g1 : G1) (g2 : G2),
  R g1 g2 ->
  agree R (trials_loop p gi ri n results ec g1)
        (trials_loop p gi ri n results ec g2).
Proof.
  induction n as [|n IH]; intros results ec g1 g2 H0.
  - simpl. split; [reflexivity|exact H0].
  - cbn [trials_loop].
    pose proof (trial_agree p gi ri ec g1 g2 H0) as A.
    destruct (trial p gi ri ec g1) as [x|[[r1 ec1] a1]];
      destruct (trial p gi ri ec g2) as [y|[[r2 ec2] b1]];
      simpl in A; try contradiction.
    + simpl. exact A.
    + destruct A as [E H1]. inversion E; subst r2 ec2.
      cbn [bind]. apply IH. exact H1.
Qed.

End Reproducible.

(** C9. Two runs with the same parameters, started from generator states
    that yield the same draws (in particular from one seed, that is from
    the same state), return the same trial results, flag for flag, cash
    for cash, duration for duration and month for month, and the same
    event tally; or they fail with the same exception. *)
Theorem same_seed_same_results {G1 G2 : Type} {RS1 : RandomState G1}
    {RS2 : RandomState G2} (R : G1 -> G2 -> Prop) (p : Params) (gi ri : Q)
    (g1 : G1) (g2 : G2) :
  same_draws R ->
  R g1 g2 ->
  match run_simulation p gi ri g1, run_simulation p gi ri g2 with
  | inl a, inl b => a = b
  | inr (results1, ec1, g1'), inr (results2, ec2, g2') =>
      results1 = results2 /\ ec1 = ec2 /\ R g1' g2'
  | _, _ => False
  end.
Proof.
  intros HR H0. unfold run_simulation.
  pose proof (trials_loop_agree R HR p gi ri (Z.to_nat (num_simulations p))
                [] [] g1 g2 H0) as A.
  unfold agree in A.
  destruct (trials_loop _ _ _ _ _ _ g1) as [x|[[res1 ec1] a1]];
    destruct (trials_loop _ _ _ _ _ _ g2) as [y|[[res2 ec2] b1]];
    try contradiction.
  - exact A.
  - destruct A as [E H1]. inversion E. auto.
Qed.

Lemma same_seed_same_results_witness :
  match run_simulation params_wargame 20 80 [5; 10; 2; 50; 50]%Z,
        run_simulation params_wargame 20 80 [5; 10; 2; 50; 50]%Z with
  | inl a, inl b => a = b
  | inr (results1, ec1, g1'), inr (results2, ec2, g2') =>
      results1 = results2 /\ ec1 = ec2 /\ g1' = g2'
  | _, _ => False
  end.
Proof.
  apply (same_seed_same_results eq params_wargame 20 80).
  - split; intros; subst; split; reflexivity.
  - reflexivity.
Defined.

(** ** Scores *)

Lemma py_round_nonneg (q : Q) : 0 <= q -> (0 <= py_round q)%Z.
Proof.
  intros Hq. unfold py_round.
  assert (F : (0 <= Qfloor q)%Z).
  { change 0%Z with (Qfloor 0). apply Qfloor_resp_le. exact Hq. }
  destruct (Qltb _ (1 # 2)); [exact F|].
  destruct (Qltb (1 # 2) _); [lia|].
  destruct (Z.even (Qfloor q)); lia.
Qed.

Lemma py_sum_nonneg (l : list Q) :
  Forall (fun x => 0 <= x) l -> 0 <= py_sum l.
Proof.
  intros F. rewrite py_sum_total.
  induction F as [|x l Hx F IH]; simpl; [lra|lra].
Qed.

Lemma np_mean_nonempty (l : list Q) :
  l <> [] ->
  exists m : Q, np_mean l = Some m /\ (Forall (fun x => 0 <= x) l -> 0 <= m).
Proof.
  intros Hne. destruct l as [|x l]; [congruence|].
  eexists. split; [reflexivity|].
  intros F. apply py_sum_nonneg in F.
  apply Qle_shift_div_l.
  - change 0 with (inject_Z 0). rewrite <- Zlt_Qlt. simpl length. lia.
  - rewrite Qmult_0_l. exact F.
Qed.

Lemma np_var_nonempty (l : list Q) :
  l <> [] -> exists v : Q, np_var l = Some v.
Proof.
  intros Hne. unfold np_var.
  destruct (np_mean_nonempty l Hne) as (m & E & _). rewrite E.
  destruct (np_mean_nonempty (map (fun x => (x - m) * (x - m)) l))
    as (v & Ev & _).
  - destruct l; [congruence|discriminate].
  - exists v. exact Ev.
Qed.

(** The integer computed for [int(np.std / 10000)] is the integer part of
    [sqrt v / 10000]: its square, in units of 10000, is below [v] and the
    next one is above. *)
Lemma int_std_sound (v : Q) :
  0 <= v ->
  let z := int_std_over_10000 v in
  (0 <= z)%Z
  /\ inject_Z (10000 * z) * inject_Z (10000 * z) <= v
  /\ v < inject_Z (10000 * (z + 1)) * inject_Z (10000 * (z + 1)).
Proof.
  intros Hv z. unfold int_std_over_10000 in z.
  set (K := inject_Z (10000 * 10000)) in *.
  set (w := v / K) in *.
  assert (HK : 0 < K) by reflexivity.
  assert (Hw : 0 <= w).
  { unfold w. apply Qle_shift_div_l; [exact HK|]. lra. }
  assert (F : (0 <= Qfloor w)%Z).
  { change 0%Z with (Qfloor 0). apply Qfloor_resp_le. exact Hw. }
  pose proof (Z.sqrt_spec (Qfloor w) F) as [S1 S2]. fold z in S1, S2.
  pose proof (Qfloor_le w) as F1. pose proof (Qlt_floor w) as F2.
  assert (Ev : v == w * K).
  { unfold w. field. discriminate. }
  assert (Sq : forall a : Z,
             inject_Z (10000 * a) * inject_Z (10000 * a)
             == inject_Z (a * a) * K).
  { intros a. unfold K. rewrite <- !inject_Z_mult.
    apply inject_Z_injective. ring. }
  split; [apply Z.sqrt_nonneg|]. split.
  - rewrite Sq, Ev.
    apply Qmult_le_compat_r; [|apply Qlt_le_weak; exact HK].
    apply Qle_trans with (inject_Z (Qfloor w)); [|exact F1].
    rewrite <- Zle_Qle. exact S1.
  - rewrite Sq, Ev.
    apply Qmult_lt_compat_r; [exact HK|].
    apply Qlt_le_trans with (inject_Z (Qfloor w + 1)); [exact F2|].
    rewrite <- Zle_Qle. lia.
Qed.

(** *** The tally holds counts *)

Lemma dict_get_nonneg (d : dict) (k : event_type) :
  dict_nonneg d -> (0 <= dict_get d k 0)%Z.
Proof.
  induction 1 as [|[k' v] d Hv F IH]; simpl; [lia|].
  destruct (event_eqb k k'); [exact Hv|exact IH].
Qed.

Lemma dict_set_nonneg (d : dict) (k : event_type) (v : Z) :
  dict_nonneg d -> (0 <= v)%Z -> dict_nonneg (dict_set d k v).
Proof.
  intros F Hv. induction F as [|[k' v'] d Hv' F IH]; simpl.
  - constructor; [exact Hv|constructor].
  - destruct (event_eqb k k'); constructor; auto.
Qed.

Lemma tally_nonneg (ec : dict) (event : option event_type) :
  dict_nonneg ec -> dict_nonneg (tally ec event).
Proof.
  intros F. destruct event as [e|]; simpl; [|exact F].
  apply dict_set_nonneg; [exact F|].
  pose proof (dict_get_nonneg ec e F). lia.
Qed.

Lemma sum_values_nonneg (d : dict) :
  dict_nonneg d -> (0 <= fold_left Z.add (dict_values d) 0)%Z.
Proof.
  intros F. unfold dict_values.
  assert (A : forall a : Z, (0 <= a)%Z ->
                (0 <= fold_left Z.add (map snd d) a)%Z).
  { induction F as [|kv d Hv F IH]; intros a Ha; simpl; [exact Ha|].
    apply IH. lia. }
  apply A. lia.
Qed.

Section Tally.

Context {G : Type} `{RandomState G}.

Variable P : dict -> Prop.
Hypothesis P_tally : forall ec event, P ec -> P (tally ec event).

Lemma months_loop_tally (p : Params) (n : nat) :
  forall month st history ec (g : G) st' history' ec' g',
  months_loop p n month st history ec g = inr (st', history', ec', g') ->
  P ec -> P ec'.
Proof.
  induction n as [|n IH]; intros month st history ec g st' history' ec' g' E F.
  - simpl in E. inversion E; subst. exact F.
  - simpl in E. rewrite month_body_split in E.
    destruct (month_draws p g) as [[shock event] g1].
    destruct (month_step p month st shock event) as [x|[st1 r]];
      simpl in E; [discriminate|].
    destruct (Qltb (cash st1) 0).
    + inversion E; subst. apply P_tally, F.
    + eapply IH; [exact E|]. apply P_tally, F.
Qed.

Lemma trials_loop_tally (p : Params) (gi ri : Q) (n : nat) :
  forall results ec (g : G) results' ec' g',
  trials_loop p gi ri n results ec g = inr (results', ec', g') ->
  P ec -> P ec'.
Proof.
  induction n as [|n IH]; intros results ec g results' ec' g' E F.
  - simpl in E. inversion E; subst. exact F.
  - simpl in E. unfold trial in E.
    destruct (months_loop _ _ _ _ _ _ _) as [x|[[[st h] ec1] g1]] eqn:L;
      simpl in E; [discriminate|].
    eapply IH; [exact E|].
    eapply months_loop_tally; [exact L|exact F].
Qed.

End Tally.

Lemma run_simulation_tally_nonneg {G : Type} `{RandomState G} (p : Params)
    (gi ri : Q) (g g' : G) (results : list TrialResult) (ec : dict) :
  run_simulation p gi ri g = inr (results, ec, g') -> dict_nonneg ec.
Proof.
  unfold run_simulation. intros E.
  eapply (trials_loop_tally dict_nonneg tally_nonneg); [exact E|].
  constructor.
Qed.

(** *** Bounds of the four scores *)

Lemma inject_Z_pos (z : Z) : (1 <= z)%Z -> 0 < inject_Z z.
Proof. intros Hz. change 0 with (inject_Z 0). rewrite <- Zlt_Qlt. lia. Qed.

Lemma Qeq_bool_pos (q : Q) : 0 < q -> Qeq_bool q 0 = false.
Proof.
  intros Hq. destruct (Qeq_bool q 0) eqn:E; [|reflexivity].
  apply Qeq_bool_iff in E. lra.
Qed.

Lemma Qdiv_nonneg (a b : Q) : 0 <= a -> 0 < b -> 0 <= a / b.
Proof.
  intros Ha Hb. apply Qle_shift_div_l; [exact Hb|]. lra.
Qed.

Lemma scoring_bounds (p : Params) (sim_data : list TrialResult)
    (ec : dict) :
  sim_data <> [] ->
  Forall (fun s => (0 <= duree s)%Z) sim_data ->
  dict_nonneg ec ->
  (1 <= num_simulations p)%Z ->
  (1 <= total_months p)%Z ->
  exists s : Scores,
    strategic_scoring p sim_data ec = inr s /\ scores_in_range s.
Proof.
  intros Hne Hd Hec HN HM. unfold strategic_scoring.
  destruct (np_mean_nonempty (map (fun s => bool_to_Q (succes s)) sim_data))
    as (sr & Esr & Hsr).
  { destruct sim_data; [congruence|discriminate]. }
  destruct (np_mean_nonempty (map (fun s => inject_Z (duree s)) sim_data))
    as (al & Eal & Hal).
  { destruct sim_data; [congruence|discriminate]. }
  destruct (np_var_nonempty (map cash_final sim_data)) as (v & Ev).
  { destruct sim_data; [congruence|discriminate]. }
  assert (Sr : 0 <= sr).
  { apply Hsr. apply Forall_map. apply Forall_forall. intros s _.
    destruct (succes s); cbv; discriminate. }
  assert (Al : 0 <= al).
  { apply Hal. apply Forall_map. revert Hd. apply Forall_impl.
    intros s Hs. change 0 with (inject_Z 0). rewrite <- Zle_Qle. exact Hs. }
  pose proof (sum_values_nonneg ec Hec) as Te.
  set (te := fold_left Z.add (dict_values ec) 0%Z) in *.
  assert (Dm : 0 < inject_Z (total_months p) / 5).
  { apply Qlt_shift_div_l; [reflexivity|]. rewrite Qmult_0_l.
    apply inject_Z_pos, HM. }
  pose proof (inject_Z_pos _ HN) as Dn.
  rewrite Esr, Eal, Ev. cbn [option_map round_float bind ret].
  unfold round_lifetime_ratio, round_event_ratio, py_div.
  rewrite (Qeq_bool_pos _ Dm), (Qeq_bool_pos _ Dn). cbn [bind ret].
  assert (R1 : (0 <= py_round (sr * 100 / 20))%Z).
  { apply py_round_nonneg, Qdiv_nonneg; [lra|reflexivity]. }
  assert (R2 : (0 <= py_round (al / (inject_Z (total_months p) / 5)))%Z).
  { apply py_round_nonneg, Qdiv_nonneg; assumption. }
  assert (R3 : (0 <= int_std_over_10000 v)%Z) by apply Z.sqrt_nonneg.
  assert (R4 : (0 <= py_round (inject_Z te / inject_Z (num_simulations p)
                               * 5))%Z).
  { apply py_round_nonneg.
    assert (0 <= inject_Z te / inject_Z (num_simulations p)).
    { apply Qdiv_nonneg; [|exact Dn].
      change 0 with (inject_Z 0). rewrite <- Zle_Qle. exact Te. }
    lra. }
  eexists. split; [reflexivity|].
  unfold scores_in_range.
  cbn [robust_score resilience_score stability_score vulnerability_score
       total_score].
  lia.
Qed.

(** C5. On the results and the tally of a run with at least one trial
    and one month, whenever the scoring returns its scores, each of the
    four (robustness, resilience, stability, external vulnerability) is
    between 0 and 5, and the total, their sum, is between 0 and 20. *)
Theorem scores_within_bounds {G : Type} `{RandomState G} (p : Params)
    (gi ri : Q) (g g' : G) (results : list TrialResult) (ec : dict)
    (s : Scores) :
  (1 <= num_simulations p)%Z ->
  (1 <= total_months p)%Z ->
  run_simulation p gi ri g = inr (results, ec, g') ->
  strategic_scoring p results ec = inr s ->
  (0 <= robust_score s <= 5)%Z
  /\ (0 <= resilience_score s <= 5)%Z
  /\ (0 <= stability_score s <= 5)%Z
  /\ (0 <= vulnerability_score s <= 5)%Z
  /\ total_score s
     = (robust_score s + resilience_score s + stability_score s
        + vulnerability_score s)%Z
  /\ (0 <= total_score s <= 20)%Z.
Proof.
  intros HN HM E Hs.
  pose proof (run_simulation_tally_nonneg p gi ri g g' results ec E) as Hec.
  apply run_simulation_results in E. destruct E as [F L].
  destruct (scoring_bounds p results ec) as (s' & Es & B); auto.
  - intros ->. simpl in L. lia.
  - revert F. apply Forall_impl. intros r (_ & Hd & _). rewrite Hd. lia.
  - rewrite Es in Hs. inversion Hs; subst s'. exact B.
Qed.

Lemma scores_within_bounds_witness :
  exists s : Scores,
    total_score s = 10%Z
    /\ (0 <= robust_score s <= 5)%Z
    /\ (0 <= resilience_score s <= 5)%Z
    /\ (0 <= stability_score s <= 5)%Z
    /\ (0 <= vulnerability_score s <= 5)%Z
    /\ total_score s
       = (robust_score s + resilience_score s + stability_score s
          + vulnerability_score s)%Z
    /\ (0 <= total_score s <= 20)%Z.
Proof.
  destruct (run_simulation params_short 20 80 [50; 50; 50; 50]%Z)
    as [x|[[results ec] g']] eqn:E; [vm_compute in E; discriminate|].
  destruct (strategic_scoring params_short results ec) as [x|s] eqn:Es.
  - vm_compute in E. inversion E; subst. vm_compute in Es. discriminate.
  - exists s. split.
    + vm_compute in E. inversion E; subst. vm_compute in Es.
      inversion Es. reflexivity.
    + apply (scores_within_bounds params_short 20 80 [50; 50; 50; 50]%Z g'
               results ec s).
      * simpl. lia.
      * simpl. lia.
      * exact E.
      * exact Es.
Defined.

(** Two trials that both stop after the first of twelve months: no
    survival, a short life, no volatility, no event. *)
Example scores_of_a_short_run :
  match run_simulation params_short 20 80 [50; 50; 50; 50]%Z with
  | inr (results, ec, _) =>
      match strategic_scoring params_short results ec with
      | inr s =>
          (robust_score s, resilience_score s, stability_score s,
           vulnerability_score s, total_score s)
          = (0, 0, 5, 5, 10)%Z
      | inl _ => False
      end
  | inl _ => False
  end.
Proof. vm_compute. reflexivity. Qed.

(** ** Parameters are not validated *)




(** Parameters inside every documented range can still fail: a
    competitor that loses all its clients next to a start-up that has
    none left. *)
Example documented_ranges_can_divide_by_zero :
  spec_valid_params params_vanishing 0 = true
  /\ run_simulation params_vanishing 0 0 ([] : list Z)
     = inl ZeroDivisionError.
Proof. split; vm_compute; reflexivity. Qed.


(** * More of the scripts *)

(** ** Invariants along the months *)

Section MonthsInvariant.

Context {G : Type} `{RandomState G}.

Variable p : Params.

(** [Inv month st]: what holds of the state when month number [month]
    (from 0) starts; [Rec r]: what holds of every history entry. *)
Variable Inv : Z -> TrialState -> Prop.
Variable Rec : MonthRecord -> Prop.

Hypothesis body_keeps :
  forall month st ec (g : G) st' r ec' g',
  Inv month st ->
  month_body p month st ec g = inr (st', r, ec', g') ->
  Inv (month + 1) st' /\ Rec r.

Lemma months_loop_invariant (n : nat) :
  forall month st history ec (g : G) st' history' ec' g',
  Inv month st ->
  Forall Rec history ->
  months_loop p n month st history ec g = inr (st', history', ec', g') ->
  Forall Rec history'.
Proof.
  induction n as [|n IH]; intros month st history ec g st' history' ec' g'
    Hi Hh E.
  - simpl in E. inversion E; subst. exact Hh.
  - cbn [months_loop] in E.
    destruct (month_body p month st ec g) as [x|[[[st1 r] ec1] g1]] eqn:B;
      cbn [bind] in E; [discriminate|].
    destruct (body_keeps _ _ _ _ _ _ _ _ Hi B) as [Hi1 Hr].
    assert (Hh1 : Forall Rec (history ++ [r])).
    { apply Forall_app. split; [exact Hh|]. constructor; [exact Hr|constructor]. }
    destruct (Qltb (cash st1) 0).
    + inversion E; subst. exact Hh1.
    + eapply IH; [exact Hi1 | exact Hh1 | exact E].
Qed.

Lemma run_simulation_invariant (gi ri : Q) (g g' : G)
    (results : list TrialResult) (ec : dict) :
  Inv 0 (initial_state p gi ri) ->
  run_simulation p gi ri g = inr (results, ec, g') ->
  Forall (fun r => Forall Rec (data r)) results.
Proof.
  intros Hi E. unfold run_simulation in E.
  apply (trials_loop_results (fun r => Forall Rec (data r))) in E.
  - apply E.
  - intros ec0 g0 r ec1 g1 T. unfold trial in T.
    destruct (months_loop _ _ _ _ _ _ _) as [x|[[[st h] ec2] g2]] eqn:L;
      cbn [bind] in T; [discriminate|].
    inversion T; subst. simpl.
    eapply months_loop_invariant; [exact Hi | constructor | exact L].
  - constructor.
Qed.

End MonthsInvariant.

(** The same, for what does not depend on the draws. *)
Lemma run_simulation_step_invariant {G : Type} `{RandomState G} (p : Params)
    (Inv : Z -> TrialState -> Prop) (Rec : MonthRecord -> Prop) :
  (forall month st shock event st' r,
     Inv month st ->
     month_step p month st shock event = inr (st', r) ->
     Inv (month + 1)%Z st' /\ Rec r) ->
  forall (gi ri : Q) (g g' : G) results ec,
  Inv 0%Z (initial_state p gi ri) ->
  run_simulation p gi ri g = inr (results, ec, g') ->
  Forall (fun r => Forall Rec (data r)) results.
Proof.
  intros Hstep gi ri g g' results ec Hi E.
  eapply (run_simulation_invariant p Inv Rec); [|exact Hi|exact E].
  intros month st ec0 g0 st' r ec' g1 Hm B.
  rewrite month_body_split in B.
  destruct (month_draws p g0) as [[shock event] g2].
  destruct (month_step p month st shock event) as [x|[st1 r1]] eqn:S;
    cbn [bind] in B; [discriminate|].
  inversion B; subst. eapply Hstep; [exact Hm|exact S].
Qed.

(** ** The history of a trial *)

Lemma last_is_nth {A : Type} (l : list A) (d : A) :
  last l d = nth (length l - 1) l d.
Proof.
  induction l as [|a l IH]; [reflexivity|].
  destruct l as [|b l]; [reflexivity|].
  change (last (a :: b :: l) d) with (last (b :: l) d).
  rewrite IH. simpl. rewrite Nat.sub_0_r. reflexivity.
Qed.

(** X1. The entries of a history are numbered 1, 2, 3, ... without gap:
    entry [i] (from 0) is month [i + 1], and the last one is month
    [duree]. *)
Theorem history_months_are_numbered {G : Type} `{RandomState G} (p : Params)
    (gi ri : Q) (g g' : G) (results : list TrialResult) (ec : dict)
    (r : TrialResult) :
  run_simulation p gi ri g = inr (results, ec, g') ->
  In r results ->
  (forall i d, (i < length (data r))%nat ->
     mois (nth i (data r) d) = (Z.of_nat i + 1)%Z)
  /\ (forall d, data r <> [] -> mois (last (data r) d) = duree r).
Proof.
  intros E I.
  apply run_simulation_results in E. destruct E as [F _].
  rewrite Forall_forall in F. specialize (F r I).
  destruct F as (_ & Hd & _ & _ & _ & _ & _ & Hm).
  split; [exact Hm|].
  intros d Hne. rewrite Hd.
  destruct (data r) as [|x l] eqn:D; [congruence|].
  rewrite <- D in *.
  assert (L : (length (data r) - 1 < length (data r))%nat).
  { rewrite D. simpl. lia. }
  rewrite last_is_nth, (Hm _ d L). rewrite D. simpl length. lia.
Qed.

Lemma history_months_are_numbered_witness :
  exists r : TrialResult,
    duree r = 3%Z
    /\ (forall i d, (i < length (data r))%nat ->
          mois (nth i (data r) d) = (Z.of_nat i + 1)%Z)
    /\ (forall d, data r <> [] -> mois (last (data r) d) = duree r).
Proof.
  destruct (run_simulation params_trace 20 80 ([] : list Z))
    as [x|[[results ec] g']] eqn:E; [vm_compute in E; discriminate|].
  exists (hd result_default results). split.
  - vm_compute in E. inversion E. reflexivity.
  - apply (history_months_are_numbered params_trace 20 80 [] g' results ec).
    + exact E.
    + vm_compute in E. inversion E. simpl. left. reflexivity.
Defined.

(** ** Cash accounting *)

Lemma cash_after_event (event : option event_type) (st : TrialState) :
  cash (after_event event st) == cash st + funding_of event.
Proof. destruct event as [[] |]; simpl; ring. Qed.

Lemma months_loop_cash {G : Type} `{RandomState G} (p : Params) (n : nat) :
  forall month st history ec (g : G) st' history' ec' g',
  months_loop p n month st history ec g = inr (st', history', ec', g') ->
  exists new : list MonthRecord,
    history' = history ++ new /\ cash_accounting p (cash st) new.
Proof.
  induction n as [|n IH]; intros month st history ec g st' history' ec' g' E.
  - simpl in E. inversion E; subst. exists []. rewrite app_nil_r.
    split; [reflexivity|exact I].
  - cbn [months_loop] in E. rewrite month_body_split in E.
    destruct (month_draws p g) as [[shock event] g1].
    destruct (month_step p month st shock event) as [x|[st1 r]] eqn:S;
      cbn [bind ret] in E; [discriminate|].
    pose proof (month_step_record _ _ _ _ _ _ _ S)
      as (_ & Rc & _ & _ & Ev & _).
    apply month_step_effects in S. destruct S as (_ & _ & Sc).
    assert (A : m_cash r == cash st + funding_of (m_event r)
                            + m_clients r * 10 - burn_rate p).
    { rewrite Sc, cash_after_event, Ev. reflexivity. }
    destruct (Qltb (cash st1) 0).
    + inversion E; subst. exists [r]. split; [reflexivity|].
      simpl. split; [exact A|exact I].
    + apply IH in E. destruct E as (new & Eh & Ea).
      exists (r :: new). rewrite Eh, <- app_assoc.
      split; [reflexivity|]. simpl.
      split; [exact A | rewrite Rc; exact Ea].
Qed.

(** X2. Along every history, whatever the shocks, events and
    competitors, the cash of a month is the cash of the month before
    (the starting cash for the first), plus 20000 if a funding fired
    that month, plus 10 per client of the month, minus the burn. *)
Theorem cash_is_accounted_for {G : Type} `{RandomState G} (p : Params)
    (gi ri : Q) (g g' : G) (results : list TrialResult) (ec : dict)
    (r : TrialResult) :
  run_simulation p gi ri g = inr (results, ec, g') ->
  In r results ->
  cash_accounting p (cash_start p) (data r).
Proof.
  intros E I. unfold run_simulation in E.
  apply (trials_loop_results (fun r => cash_accounting p (cash_start p) (data r)))
    in E.
  - destruct E as [F _]. rewrite Forall_forall in F. apply F, I.
  - intros ec0 g0 r0 ec1 g1 T. unfold trial in T.
    destruct (months_loop _ _ _ _ _ _ _) as [x|[[[st h] ec2] g2]] eqn:L;
      cbn [bind] in T; [discriminate|].
    inversion T; subst. simpl.
    apply months_loop_cash in L. destruct L as (new & Eh & A).
    simpl in Eh. subst h. exact A.
  - constructor.
Qed.

Lemma cash_is_accounted_for_witness :
  exists r : TrialResult,
    events_of (data r) <> []
    /\ cash_accounting params_duel (cash_start params_duel) (data r).
Proof.
  destruct (run_simulation params_duel 20 80 [50; 10; 0; 5; 99]%Z)
    as [x|[[results ec] g']] eqn:E; [vm_compute in E; discriminate|].
  exists (hd result_default results). split.
  - vm_compute in E. inversion E. simpl. discriminate.
  - apply (cash_is_accounted_for params_duel 20 80 [50; 10; 0; 5; 99]%Z
             g' results ec).
    + exact E.
    + vm_compute in E. inversion E. simpl. left. reflexivity.
Defined.

(** ** Competitors along a trial *)

(** When the competitor loop returns, the counts it leaves are the
    compounded ones. *)
Lemma competitors_loop_counts (comps : list Competitor) :
  forall (done todo : list Q) (clients eg : Q) (cc' : list Q) (eg' : Q),
  length todo = length comps ->
  competitors_loop (length done) comps clients (done ++ todo) eg
  = inr (cc', eg') ->
  cc' = done ++ spec_compounded comps todo.
Proof.
  induction comps as [|comp comps IH];
    intros done todo clients eg cc' eg' L E.
  - simpl in E. inversion E; subst.
    destruct todo; [reflexivity|discriminate].
  - destruct todo as [|c todo]; [discriminate|].
    cbn [competitors_loop] in E.
    rewrite nth_error_middle, list_set_middle in E.
    destruct (py_div _ _) as [x|share]; cbn [bind] in E; [discriminate|].
    replace (done ++ c * (1 + growth comp / 100) :: todo)
      with ((done ++ [c * (1 + growth comp / 100)]) ++ todo) in E
      by (rewrite <- app_assoc; reflexivity).
    replace (S (length done))
      with (length (done ++ [c * (1 + growth comp / 100)])) in E
      by (rewrite length_app; simpl; lia).
    apply IH in E; [|simpl in L; lia].
    rewrite E, <- app_assoc. reflexivity.
Qed.

Lemma spec_compounded_map (f : Competitor -> Q) (comps : list Competitor) :
  spec_compounded comps (map f comps)
  = map (fun comp => f comp * (1 + growth comp / 100)) comps.
Proof.
  induction comps as [|comp comps IH]; simpl; [reflexivity|].
  rewrite IH. reflexivity.
Qed.

Lemma competitors_after_step (p : Params) (month : Z) (st st' : TrialState)
    (shock : bool) (event : option event_type) (r : MonthRecord) (m : nat) :
  comp_clients st = competitors_after p m ->
  month_step p month st shock event = inr (st', r) ->
  comp_clients st' = competitors_after p (S m).
Proof.
  unfold month_step, competitors_after. intros Hc E.
  destruct (wargame_mode p) eqn:W.
  - destruct (competitors_loop _ _ _ _ _) as [x|[cc eg]] eqn:L;
      cbn [bind ret] in E; [discriminate|].
    unfold update_and_record in E. inversion E; subst. simpl.
    rewrite Hc in L.
    apply (competitors_loop_counts (competitors p) []) in L;
      [|apply length_map].
    simpl in L. rewrite L, spec_compounded_map. reflexivity.
  - cbn [bind ret] in E. unfold update_and_record in E.
    inversion E; subst. simpl. exact Hc.
Qed.

(** X3. The snapshot of the competitors in the entry of month [m] has one
    count per competitor, and in wargame mode the count of a competitor
    is 100 compounded [m] times by its own growth: it depends neither on
    the start-up, nor on the shocks, nor on the events, nor on the other
    competitors. Out of wargame mode the counts stay at 100. *)
Theorem competitors_grow_on_their_own {G : Type} `{RandomState G}
    (p : Params) (gi ri : Q) (g g' : G) (results : list TrialResult)
    (ec : dict) (r : TrialResult) :
  run_simulation p gi ri g = inr (results, ec, g') ->
  In r results ->
  forall i d, (i < length (data r))%nat ->
    m_competitors (nth i (data r) d) = competitors_after p (S i)
    /\ length (m_competitors (nth i (data r) d)) = length (competitors p).
Proof.
  intros E I i d L.
  assert (F : Forall (fun r => Forall (fun m =>
                m_competitors m = competitors_after p (Z.to_nat (mois m)))
                (data r)) results).
  { eapply (run_simulation_step_invariant p
              (fun month st => (0 <= month)%Z
                 /\ comp_clients st = competitors_after p (Z.to_nat month)));
      [| |exact E].
    - intros month st shock event st' r0 [Hm Hc] Hs.
      pose proof (month_step_record _ _ _ _ _ _ _ Hs)
        as (Rm & _ & _ & _ & _ & Rc).
      pose proof (competitors_after_step _ _ _ _ _ _ _ _ Hc Hs) as Hc'.
      replace (Z.to_nat (month + 1)) with (S (Z.to_nat month)) by lia.
      split; [split; [lia|exact Hc']|].
      rewrite Rc, Rm.
      replace (Z.to_nat (month + 1)) with (S (Z.to_nat month)) by lia.
      exact Hc'.
    - split; [lia|]. unfold competitors_after, initial_state. simpl.
      apply map_ext. intros comp. destruct (wargame_mode p); reflexivity. }
  apply run_simulation_results in E. destruct E as [Sh _].
  rewrite Forall_forall in Sh. specialize (Sh r I).
  destruct Sh as (_ & _ & _ & _ & _ & _ & _ & Hm).
  rewrite Forall_forall in F. specialize (F r I).
  rewrite Forall_forall in F.
  assert (Hr : m_competitors (nth i (data r) d)
               = competitors_after p (S i)).
  { rewrite (F (nth i (data r) d)) by (apply nth_In; exact L).
    rewrite (Hm i d L).
    replace (Z.to_nat (Z.of_nat i + 1)) with (S i) by lia. reflexivity. }
  split; [exact Hr|].
  rewrite Hr. unfold competitors_after. apply length_map.
Qed.

Lemma competitors_grow_on_their_own_witness :
  exists r : TrialResult,
    forall i d, (i < length (data r))%nat ->
      m_competitors (nth i (data r) d) = competitors_after params_duel (S i)
      /\ length (m_competitors (nth i (data r) d)) = 2%nat.
Proof.
  destruct (run_simulation params_duel 20 80 [50; 10; 0; 5; 99]%Z)
    as [x|[[results ec] g']] eqn:E; [vm_compute in E; discriminate|].
  exists (hd result_default results).
  apply (competitors_grow_on_their_own params_duel 20 80
           [50; 10; 0; 5; 99]%Z g' results ec).
  - exact E.
  - vm_compute in E. inversion E. simpl. left. reflexivity.
Defined.

(** After three months a competitor growing by 25% a month has
    100 * 1.25^3 clients. *)
Example competitor_after_three_months :
  Qred (compounded_times 100 25 3) = 3125 # 16.
Proof. reflexivity. Qed.

(** ** Clients are not clamped *)

(** A negative growth rate is accepted and can drive the clients below
    zero: nothing clamps them. *)
Example clients_can_go_negative :
  exists r m,
    run_simulation
      {| cash_start := 20000; burn_rate := 5000; market_shock_prob := 0;
         event_chance := 0; wargame_mode := false; competitors := [];
         total_months := 1; num_simulations := 1 |} (-(50)) 0 ([] : list Z)
    = inr ([r], [], [])
    /\ data r = [m] /\ m_clients m < 0.
Proof.
  eexists _, _. split; [vm_compute; reflexivity|].
  split; reflexivity.
Qed.

(** ** The tally of events *)

Lemma event_eqb_eq (a b : event_type) : event_eqb a b = true <-> a = b.
Proof. destruct a, b; simpl; split; congruence. Qed.

Lemma event_eqb_neq (a b : event_type) : event_eqb a b = false <-> a <> b.
Proof. destruct a, b; simpl; split; congruence. Qed.

(** What is stored under a key is what is read back. *)
Lemma dict_get_set_same (d : dict) (k : event_type) (v x : Z) :
  dict_get (dict_set d k v) k x = v.
Proof.
  induction d as [|[k' v'] d IH]; simpl.
  - replace (event_eqb k k) with true by (symmetry; apply event_eqb_eq; auto).
    reflexivity.
  - destruct (event_eqb k k') eqn:E; simpl; rewrite ?E; auto.
    replace (event_eqb k k) with true by (symmetry; apply event_eqb_eq; auto).
    reflexivity.
Qed.

(** Storing under a key leaves the other keys alone. *)
Lemma dict_get_set_other (d : dict) (k k' : event_type) (v x : Z) :
  k <> k' -> dict_get (dict_set d k v) k' x = dict_get d k' x.
Proof.
  intros N.
  assert (N' : event_eqb k' k = false) by (apply event_eqb_neq; congruence).
  induction d as [|[k0 v0] d IH]; simpl.
  - rewrite N'. reflexivity.
  - destruct (event_eqb k k0) eqn:E; simpl.
    + apply event_eqb_eq in E. subst k0. rewrite N'. reflexivity.
    + rewrite IH. reflexivity.
Qed.

Lemma dict_set_keys (d : dict) (k k' : event_type) (v : Z) :
  In k' (map fst (dict_set d k v)) <-> k' = k \/ In k' (map fst d).
Proof.
  induction d as [|[k0 v0] d IH]; simpl.
  - intuition congruence.
  - destruct (event_eqb k k0) eqn:E; simpl.
    + apply event_eqb_eq in E. subst k0. intuition congruence.
    + rewrite IH. intuition congruence.
Qed.

Lemma dict_set_nodup (d : dict) (k : event_type) (v : Z) :
  NoDup (map fst d) -> NoDup (map fst (dict_set d k v)).
Proof.
  induction d as [|[k0 v0] d IH]; simpl; intros N.
  - constructor; [intros []|constructor].
  - inversion N as [|? ? Hn N']; subst.
    destruct (event_eqb k k0) eqn:E; simpl.
    + apply event_eqb_eq in E. subst k0. constructor; assumption.
    + constructor; [|apply IH, N'].
      rewrite dict_set_keys. intros [->|I]; [|contradiction].
      apply event_eqb_neq in E. congruence.
Qed.

Lemma fold_add_shift (l : list Z) (a : Z) :
  fold_left Z.add l a = (a + fold_left Z.add l 0)%Z.
Proof.
  revert a. induction l as [|x l IH]; intros a; simpl; [lia|].
  rewrite IH, (IH x). lia.
Qed.

Lemma sum_values_set (d : dict) (k : event_type) (v : Z) :
  sum_values (dict_set d k v) = (sum_values d - dict_get d k 0 + v)%Z.
Proof.
  unfold sum_values, dict_values.
  induction d as [|[k0 v0] d IH]; simpl; [lia|].
  destruct (event_eqb k k0) eqn:E; simpl.
  - rewrite (fold_add_shift _ v), (fold_add_shift _ v0). lia.
  - rewrite (fold_add_shift _ v0), IH, (fold_add_shift _ v0). lia.
Qed.

Lemma tally_all_app (d : dict) (l1 l2 : list event_type) :
  tally_all d (l1 ++ l2) = tally_all (tally_all d l1) l2.
Proof. unfold tally_all. apply fold_left_app. Qed.

Lemma tally_all_get (l : list event_type) :
  forall (d : dict) (k : event_type),
  dict_get (tally_all d l) k 0
  = (dict_get d k 0 + Z.of_nat (occurrences k l))%Z.
Proof.
  induction l as [|e l IH]; intros d k; simpl; [lia|].
  change (fold_left (fun d0 e0 => tally d0 (Some e0)) l (tally d (Some e)))
    with (tally_all (tally d (Some e)) l).
  rewrite IH. simpl tally.
  destruct (event_eqb k e) eqn:E.
  - apply event_eqb_eq in E. subst e. rewrite dict_get_set_same. lia.
  - apply event_eqb_neq in E.
    rewrite dict_get_set_other by congruence. lia.
Qed.

Lemma tally_all_sum (l : list event_type) :
  forall d : dict,
  sum_values (tally_all d l) = (sum_values d + Z.of_nat (length l))%Z.
Proof.
  induction l as [|e l IH]; intros d; simpl; [lia|].
  change (fold_left (fun d0 e0 => tally d0 (Some e0)) l (tally d (Some e)))
    with (tally_all (tally d (Some e)) l).
  rewrite IH. simpl tally. rewrite sum_values_set. lia.
Qed.

Lemma tally_all_keys (l : list event_type) :
  forall (d : dict) (k : event_type),
  In k (map fst (tally_all d l)) <-> In k (map fst d) \/ In k l.
Proof.
  induction l as [|e l IH]; intros d k; simpl; [tauto|].
  change (fold_left (fun d0 e0 => tally d0 (Some e0)) l (tally d (Some e)))
    with (tally_all (tally d (Some e)) l).
  rewrite IH. simpl tally. rewrite dict_set_keys. intuition congruence.
Qed.

Lemma tally_all_nodup (l : list event_type) :
  forall d : dict, NoDup (map fst d) -> NoDup (map fst (tally_all d l)).
Proof.
  induction l as [|e l IH]; intros d N; simpl; [exact N|].
  apply IH. simpl tally. apply dict_set_nodup, N.
Qed.

Section TallyExact.

Context {G : Type} `{RandomState G}.

Lemma months_loop_tally_exact (p : Params) (n : nat) :
  forall month st history ec (g : G) st' history' ec' g',
  months_loop p n month st history ec g = inr (st', history', ec', g') ->
  exists new : list MonthRecord,
    history' = history ++ new /\ ec' = tally_all ec (events_of new).
Proof.
  induction n as [|n IH]; intros month st history ec g st' history' ec' g' E.
  - simpl in E. inversion E; subst. exists []. rewrite app_nil_r. auto.
  - cbn [months_loop] in E. rewrite month_body_split in E.
    destruct (month_draws p g) as [[shock event] g1].
    destruct (month_step p month st shock event) as [x|[st1 r]] eqn:S;
      cbn [bind ret] in E; [discriminate|].
    pose proof (month_step_record _ _ _ _ _ _ _ S)
      as (_ & _ & _ & _ & Ev & _).
    assert (T : tally ec event = tally_all ec (events_of [r])).
    { simpl. rewrite Ev. destruct event; reflexivity. }
    destruct (Qltb (cash st1) 0).
    + inversion E; subst. exists [r]. split; [reflexivity|exact T].
    + apply IH in E. destruct E as (new & Eh & Ee).
      exists (r :: new). rewrite Eh, <- app_assoc.
      split; [reflexivity|].
      rewrite Ee, T, <- tally_all_app. f_equal.
      simpl. destruct (m_event r); reflexivity.
Qed.

Lemma trials_loop_tally_exact (p : Params) (gi ri : Q) (n : nat) :
  forall results ec (g : G) results' ec' g',
  trials_loop p gi ri n results ec g = inr (results', ec', g') ->
  exists new : list TrialResult,
    results' = results ++ new /\ ec' = tally_all ec (all_events new).
Proof.
  induction n as [|n IH]; intros results ec g results' ec' g' E.
  - simpl in E. inversion E; subst. exists []. rewrite app_nil_r. auto.
  - cbn [trials_loop] in E. unfold trial in E.
    destruct (months_loop _ _ _ _ _ _ _) as [x|[[[st h] ec1] g1]] eqn:L;
      cbn [bind ret] in E; [discriminate|].
    apply months_loop_tally_exact in L. destruct L as (new & Eh & Ee).
    simpl in Eh. subst h.
    apply IH in E. destruct E as (newr & Er & Ec).
    eexists (_ :: newr). rewrite Er, <- app_assoc.
    split; [reflexivity|].
    rewrite Ec, Ee, <- tally_all_app. reflexivity.
Qed.

Lemma run_simulation_tally_exact (p : Params) (gi ri : Q) (g g' : G)
    (results : list TrialResult) (ec : dict) :
  run_simulation p gi ri g = inr (results, ec, g') ->
  ec = tally_all [] (all_events results).
Proof.
  unfold run_simulation. intros E.
  apply trials_loop_tally_exact in E. destruct E as (new & Er & Ec).
  simpl in Er. subst new. exact Ec.
Qed.

End TallyExact.

Lemma events_of_length (h : list MonthRecord) :
  (length (events_of h) <= length h)%nat.
Proof.
  induction h as [|r h IH]; simpl; [lia|].
  destruct (m_event r); simpl; lia.
Qed.

Lemma all_events_length (M : nat) (results : list TrialResult) :
  Forall (fun r => (length (data r) <= M)%nat) results ->
  (length (all_events results) <= length results * M)%nat.
Proof.
  induction 1 as [|r results Hr F IH]; simpl; [lia|].
  rewrite length_app. pose proof (events_of_length (data r)). lia.
Qed.

(** X5. The values of the tally add up to the number of months, over all
    the trials, whose history entry records an event; this total is at
    most the number of recorded months, hence at most
    [num_simulations * total_months]. *)
Theorem tally_counts_recorded_events {G : Type} `{RandomState G}
    (p : Params) (gi ri : Q) (g g' : G) (results : list TrialResult)
    (ec : dict) :
  run_simulation p gi ri g = inr (results, ec, g') ->
  sum_values ec = Z.of_nat (length (all_events results))
  /\ (length (all_events results)
      <= Z.to_nat (num_simulations p) * Z.to_nat (total_months p))%nat.
Proof.
  intros E.
  pose proof (run_simulation_tally_exact p gi ri g g' results ec E) as T.
  apply run_simulation_results in E. destruct E as [F L].
  split.
  - rewrite T, tally_all_sum. reflexivity.
  - rewrite <- L. apply all_events_length.
    revert F. apply Forall_impl. intros r (_ & _ & Hl & _). exact Hl.
Qed.

(** X6. The tally has one key per kind of event that fired at least
    once, and no other; under it, the number of months, over all the
    trials, that record this kind. A kind that never fired is read as 0
    by [get]. *)
Theorem tally_per_kind {G : Type} `{RandomState G} (p : Params)
    (gi ri : Q) (g g' : G) (results : list TrialResult) (ec : dict) :
  run_simulation p gi ri g = inr (results, ec, g') ->
  NoDup (map fst ec)
  /\ forall k : event_type,
       dict_get ec k 0 = Z.of_nat (occurrences k (all_events results))
       /\ (In k (map fst ec) <-> In k (all_events results)).
Proof.
  intros E.
  pose proof (run_simulation_tally_exact p gi ri g g' results ec E) as T.
  subst ec. split.
  - apply tally_all_nodup. constructor.
  - intros k. split.
    + rewrite tally_all_get. simpl. lia.
    + rewrite tally_all_keys. simpl. tauto.
Qed.

Lemma tally_counts_recorded_events_witness :
  exists results ec g',
    run_simulation params_eventful 20 80 tape_eventful
    = inr (results, ec, g')
    /\ sum_values ec = 3%Z
    /\ sum_values ec = Z.of_nat (length (all_events results))
    /\ (length (all_events results) <= 2 * 2)%nat.
Proof.
  destruct (run_simulation params_eventful 20 80 tape_eventful)
    as [x|[[results ec] g']] eqn:E; [vm_compute in E; discriminate|].
  exists results, ec, g'. split; [reflexivity|]. split.
  - vm_compute in E. inversion E. reflexivity.
  - apply (tally_counts_recorded_events params_eventful 20 80 tape_eventful
             g' results ec E).
Defined.

Lemma tally_per_kind_witness :
  exists results ec g',
    run_simulation params_eventful 20 80 tape_eventful
    = inr (results, ec, g')
    /\ ec = [(LeveeDeFonds, 2%Z); (BugCritique, 1%Z)]
    /\ NoDup (map fst ec)
    /\ forall k : event_type,
         dict_get ec k 0 = Z.of_nat (occurrences k (all_events results))
         /\ (In k (map fst ec) <-> In k (all_events results)).
Proof.
  destruct (run_simulation params_eventful 20 80 tape_eventful)
    as [x|[[results ec] g']] eqn:E; [vm_compute in E; discriminate|].
  exists results, ec, g'. split; [reflexivity|]. split.
  - vm_compute in E. inversion E. reflexivity.
  - apply (tally_per_kind params_eventful 20 80 tape_eventful g' results ec E).
Defined.

(** ** Probabilities at the ends of the slider *)

Section Flags.

Context {G : Type} `{RandomLaws G}.

(** The flags of a history entry are the two comparisons of the month. *)
Lemma month_body_flags (p : Params) (month : Z) (st st' : TrialState)
    (ec ec' : dict) (g g' : G) (r : MonthRecord) :
  month_body p month st ec g = inr (st', r, ec', g') ->
  m_shock r = Qltb (fst (rand g)) (market_shock_prob p / 100)
  /\ (Qltb (fst (rand (snd (rand g)))) (event_chance p / 100) = false ->
      m_event r = None)
  /\ (Qltb (fst (rand (snd (rand g)))) (event_chance p / 100) = true ->
      m_event r <> None).
Proof.
  rewrite month_body_split. intros E.
  destruct (Qltb (fst (rand (snd (rand g)))) (event_chance p / 100)) eqn:T.
  - apply Qltb_lt in T. rewrite (month_draws_triggered p g T) in E.
    destruct (month_step _ _ _ _ _) as [x|[st1 r1]] eqn:Hs;
      cbn [bind ret] in E; [discriminate|].
    inversion E; subst.
    apply month_step_record in Hs.
    destruct Hs as (_ & _ & _ & Sh & Ev & _).
    split_all; [exact Sh | discriminate | rewrite Ev; discriminate].
  - apply Qltb_ge in T. rewrite (month_draws_not_triggered p g T) in E.
    destruct (month_step _ _ _ _ _) as [x|[st1 r1]] eqn:Hs;
      cbn [bind ret] in E; [discriminate|].
    inversion E; subst.
    apply month_step_record in Hs.
    destruct Hs as (_ & _ & _ & Sh & Ev & _).
    split_all; [exact Sh | intros _; exact Ev | discriminate].
Qed.

Lemma draw_never (q : Q) (g : G) :
  q <= 0 -> Qltb (fst (rand g)) (q / 100) = false.
Proof.
  intros Hq. apply Qltb_ge. destruct (rand_range g) as [L _].
  apply Qle_trans with 0; [|exact L].
  apply Qle_shift_div_r; [reflexivity|]. lra.
Qed.

Lemma draw_always (q : Q) (g : G) :
  100 <= q -> Qltb (fst (rand g)) (q / 100) = true.
Proof.
  intros Hq. apply Qltb_lt. destruct (rand_range g) as [_ U].
  apply Qlt_le_trans with 1; [exact U|].
  apply Qle_shift_div_l; [reflexivity|]. lra.
Qed.

Lemma run_simulation_flags (p : Params) (Rec : MonthRecord -> Prop)
    (gi ri : Q) (g g' : G) (results : list TrialResult) (ec : dict) :
  (forall month st ec0 (g0 : G) st' r ec1 g1,
     month_body p month st ec0 g0 = inr (st', r, ec1, g1) -> Rec r) ->
  run_simulation p gi ri g = inr (results, ec, g') ->
  forall r m, In r results -> In m (data r) -> Rec m.
Proof.
  intros Hb E r m Ir Im.
  assert (F : Forall (fun r => Forall Rec (data r)) results).
  { eapply (run_simulation_invariant p (fun _ _ => True) Rec);
      [|exact I|exact E].
    intros month st ec0 g0 st' r0 ec1 g1 _ B. split; [exact I|].
    eapply Hb. exact B. }
  rewrite Forall_forall in F. specialize (F r Ir).
  rewrite Forall_forall in F. apply F, Im.
Qed.

End Flags.

Lemma events_of_all_none (h : list MonthRecord) :
  (forall m, In m h -> m_event m = None) -> events_of h = [].
Proof.
  induction h as [|r h IH]; intros F; simpl; [reflexivity|].
  rewrite (F r) by (left; reflexivity).
  apply IH. intros m Im. apply F. right. exact Im.
Qed.

Lemma events_of_all_some (h : list MonthRecord) :
  (forall m, In m h -> m_event m <> None) ->
  length (events_of h) = length h.
Proof.
  induction h as [|r h IH]; intros F; simpl; [reflexivity|].
  destruct (m_event r) eqn:E.
  - simpl. rewrite IH; [reflexivity|].
    intros m Im. apply F. right. exact Im.
  - elim (F r); [left; reflexivity|exact E].
Qed.

Lemma all_events_none (results : list TrialResult) :
  (forall r m, In r results -> In m (data r) -> m_event m = None) ->
  all_events results = [].
Proof.
  induction results as [|r results IH]; intros F; simpl; [reflexivity|].
  rewrite events_of_all_none, IH; [reflexivity| |].
  - intros r0 m Ir Im. apply (F r0 m); [right; exact Ir|exact Im].
  - intros m Im. apply (F r m); [left; reflexivity|exact Im].
Qed.

Lemma all_events_some (results : list TrialResult) :
  (forall r m, In r results -> In m (data r) -> m_event m <> None) ->
  length (all_events results) = length (flat_map data results).
Proof.
  induction results as [|r results IH]; intros F; simpl; [reflexivity|].
  rewrite !length_app, events_of_all_some, IH; [reflexivity| |].
  - intros r0 m Ir Im. apply (F r0 m); [right; exact Ir|exact Im].
  - intros m Im. apply (F r m); [left; reflexivity|exact Im].
Qed.

(** X7. A probability of 0 (or less) never fires: with such a shock
    probability no history entry has a shock, and with such an event
    probability no entry has an event and the returned tally is the
    empty dict. *)
Theorem zero_probability_never_fires {G : Type} `{RandomLaws G}
    (p : Params) (gi ri : Q) (g g' : G) (results : list TrialResult)
    (ec : dict) :
  run_simulation p gi ri g = inr (results, ec, g') ->
  (market_shock_prob p <= 0 ->
   forall r m, In r results -> In m (data r) -> m_shock m = false)
  /\ (event_chance p <= 0 ->
      ec = []
      /\ forall r m, In r results -> In m (data r) -> m_event m = None).
Proof.
  intros E. split.
  - intros Hq.
    apply (run_simulation_flags p (fun m => m_shock m = false)
             gi ri g g' results ec); [|exact E].
    intros month st ec0 g0 st' r ec1 g1 B.
    apply month_body_flags in B. destruct B as (Sh & _).
    rewrite Sh. apply draw_never, Hq.
  - intros Hq.
    assert (N : forall r m, In r results -> In m (data r) ->
                  m_event m = None).
    { apply (run_simulation_flags p (fun m => m_event m = None)
               gi ri g g' results ec); [|exact E].
      intros month st ec0 g0 st' r ec1 g1 B.
      apply month_body_flags in B. destruct B as (_ & Ev & _).
      apply Ev, draw_never, Hq. }
    split; [|exact N].
    rewrite (run_simulation_tally_exact p gi ri g g' results ec E).
    rewrite all_events_none by exact N. reflexivity.
Qed.

(** X8. A probability of 100 (or more) always fires: with such a shock
    probability every history entry has a shock, and with such an event
    probability every entry has an event, so that the tally adds up to
    the number of simulated months. *)
Theorem full_probability_always_fires {G : Type} `{RandomLaws G}
    (p : Params) (gi ri : Q) (g g' : G) (results : list TrialResult)
    (ec : dict) :
  run_simulation p gi ri g = inr (results, ec, g') ->
  (100 <= market_shock_prob p ->
   forall r m, In r results -> In m (data r) -> m_shock m = true)
  /\ (100 <= event_chance p ->
      sum_values ec = Z.of_nat (length (flat_map data results))
      /\ forall r m, In r results -> In m (data r) -> m_event m <> None).
Proof.
  intros E. split.
  - intros Hq.
    apply (run_simulation_flags p (fun m => m_shock m = true)
             gi ri g g' results ec); [|exact E].
    intros month st ec0 g0 st' r ec1 g1 B.
    apply month_body_flags in B. destruct B as (Sh & _).
    rewrite Sh. apply draw_always, Hq.
  - intros Hq.
    assert (N : forall r m, In r results -> In m (data r) ->
                  m_event m <> None).
    { apply (run_simulation_flags p (fun m => m_event m <> None)
               gi ri g g' results ec); [|exact E].
      intros month st ec0 g0 st' r ec1 g1 B.
      apply month_body_flags in B. destruct B as (_ & _ & Ev).
      apply Ev, draw_always, Hq. }
    split; [|exact N].
    rewrite (run_simulation_tally_exact p gi ri g g' results ec E).
    rewrite tally_all_sum, all_events_some by exact N. reflexivity.
Qed.

Lemma zero_probability_never_fires_witness :
  exists results ec g',
    run_simulation params_trace 20 80 [99; 0; 7]%Z = inr (results, ec, g')
    /\ ec = []
    /\ (forall r m, In r results -> In m (data r) -> m_shock m = false)
    /\ (forall r m, In r results -> In m (data r) -> m_event m = None).
Proof.
  destruct (run_simulation params_trace 20 80 [99; 0; 7]%Z)
    as [x|[[results ec] g']] eqn:E; [vm_compute in E; discriminate|].
  destruct (zero_probability_never_fires params_trace 20 80 [99; 0; 7]%Z g'
              results ec E) as [S0 E0].
  exists results, ec, g'. split; [reflexivity|].
  destruct E0 as [T N]; [simpl; lra|].
  split_all; [exact T | apply S0; simpl; lra | exact N].
Defined.

Lemma full_probability_always_fires_witness :
  exists results ec g',
    run_simulation params_always 20 80 [99; 99; 2; 0; 0; 1]%Z
    = inr (results, ec, g')
    /\ sum_values ec = 2%Z
    /\ (forall r m, In r results -> In m (data r) -> m_shock m = true)
    /\ (forall r m, In r results -> In m (data r) -> m_event m <> None).
Proof.
  destruct (run_simulation params_always 20 80 [99; 99; 2; 0; 0; 1]%Z)
    as [x|[[results ec] g']] eqn:E; [vm_compute in E; discriminate|].
  destruct (full_probability_always_fires params_always 20 80
              [99; 99; 2; 0; 0; 1]%Z g' results ec E) as [S0 E0].
  exists results, ec, g'. split; [reflexivity|].
  destruct E0 as [T N]; [simpl; lra|].
  split_all; [|apply S0; simpl; lra|exact N].
  vm_compute in E. inversion E. reflexivity.
Defined.

(** ** The engine of [app3.py] *)

Section App3Engine.

Context {G : Type} `{RandomState G}.

(** Forget the tally of a result of [analysis.py]. *)
Let forget {A : Type} (x : result (A * dict * G)) : result (A * G) :=
  match x with
  | inl e => inl e
  | inr (a, _, g) => inr (a, g)
  end.

Lemma app3_month_body (p : Params) (month : Z) (st : TrialState)
    (ec : dict) (g : G) :
  App3.month_body p month st g = forget (month_body p month st ec g).
Proof.
  unfold App3.month_body, month_body, forget.
  destruct (rand g) as [u1 g1]. destruct (rand g1) as [u2 g2].
  destruct (if wargame_mode p then _ else _) as [x|[cc eg]];
    cbn [bind ret]; [reflexivity|].
  destruct (Qltb u2 (event_chance p / 100)).
  - destruct (choice event_names LeveeDeFonds g2) as [e g3].
    destruct (update_and_record _ _ _ _ _ _ _) as [st' r]. reflexivity.
  - destruct (update_and_record _ _ _ _ _ _ _) as [st' r]. reflexivity.
Qed.

Lemma app3_months_loop (p : Params) (n : nat) :
  forall month st history ec (g : G),
  App3.months_loop p n month st history g
  = forget (months_loop p n month st history ec g).
Proof.
  induction n as [|n IH]; intros month st history ec g; [reflexivity|].
  cbn [App3.months_loop months_loop].
  rewrite (app3_month_body p month st ec g).
  destruct (month_body p month st ec g) as [x|[[[st1 r] ec1] g1]];
    cbn [forget bind ret]; [reflexivity|].
  destruct (Qltb (cash st1) 0); [reflexivity|]. apply IH.
Qed.

Lemma app3_trial (p : Params) (gi ri : Q) (ec : dict) (g : G) :
  App3.trial p gi ri g = forget (trial p gi ri ec g).
Proof.
  unfold App3.trial, trial.
  rewrite (app3_months_loop p _ _ _ _ ec g).
  destruct (months_loop _ _ _ _ _ _ _) as [x|[[[st h] ec1] g1]];
    reflexivity.
Qed.

Lemma app3_trials_loop (p : Params) (gi ri : Q) (n : nat) :
  forall results ec (g : G),
  App3.trials_loop p gi ri n results g
  = forget (trials_loop p gi ri n results ec g).
Proof.
  induction n as [|n IH]; intros results ec g; [reflexivity|].
  cbn [App3.trials_loop trials_loop].
  rewrite (app3_trial p gi ri ec g).
  destruct (trial p gi ri ec g) as [x|[[r ec1] g1]];
    cbn [forget bind ret]; [reflexivity|].
  apply IH.
Qed.

End App3Engine.

(** X9. From the same generator state and the same sliders, the engine
    of [app3.py] raises the exception or returns the list of results
    that the engine of [analysis.py] does, and leaves the generator in
    the same state: counting the events changes nothing else. *)
Theorem app3_engine_agrees_with_analysis {G : Type} `{RandomState G}
    (p : Params) (gi ri : Q) (g : G) :
  App3.run_simulation p gi ri g
  = match run_simulation p gi ri g with
    | inl e => inl e
    | inr (results, _, g') => inr (results, g')
    end.
Proof.
  unfold App3.run_simulation, run_simulation.
  apply (app3_trials_loop p gi ri (Z.to_nat (num_simulations p)) [] [] g).
Qed.
